(** * sagequeue-progress: a shallow embedding of the progress monitor

    The development follows [sagequeue-progress.py].  Python integers are
    unbounded, so they are embedded as [Z]; [Optional[int]] is [option Z];
    [Dict[int, Set[int]]] is [gmap Z (gset Z)]; text is [string], whose
    characters stand for the code points below 256.  A computation that can
    raise or loop forever returns an [outcome]. *)

From Stdlib Require Import ZArith Lia Ascii String List.
From stdpp Require Import base option numbers list strings gmap sets pretty.

Local Open Scope string_scope.
Local Open Scope Z_scope.

(** ** Outcomes of a Python computation *)

Inductive exn : Type :=
| ValueError
| OSError
| IndexError
| ZeroDivisionError.

Inductive outcome (A : Type) : Type :=
| Return (a : A)
| Raise (e : exn)
| Diverge.

Arguments Return {A} a.
Arguments Raise {A} e.
Arguments Diverge {A}.

#[global] Instance outcome_ret : MRet outcome := fun A a => Return a.

#[global] Instance outcome_bind : MBind outcome := fun A B f m =>
  match m with
  | Return a => f a
  | Raise e => Raise e
  | Diverge => Diverge
  end.

(** ** The combinatorics sizer *)

(** The binomial coefficient, by Pascal's rule (0 when [k > n]). *)
Fixpoint binomial (n k : nat) : Z :=
  match k, n with
  | O, _ => 1
  | S _, O => 0
  | S k', S n' => binomial n' k' + binomial n' k
  end.

(** [math.comb(n, k)]: a [ValueError] on a negative argument, the binomial
    coefficient otherwise. *)
Definition math_comb (n k : Z) : outcome Z :=
  if n <? 0 then Raise ValueError
  else if k <? 0 then Raise ValueError
  else Return (binomial (Z.to_nat n) (Z.to_nat k)).

(** The [while gidx < total] loop of [cases_for_offset], on the loop state
    [(count, gidx)].  [fuel] bounds the number of iterations; running out of
    it is reported as [None]. *)
Fixpoint cases_for_offset_loop (fuel : nat) (count gidx stride total : Z) : option Z :=
  if gidx <? total then
    match fuel with
    | O => None
    | S fuel' => cases_for_offset_loop fuel' (count + 1) (gidx + stride) stride total
    end
  else Some count.

(** [cases_for_offset]: the loop started at [count = 0], [gidx = offset].
    With [stride >= 1] the loop body runs at most [total - offset] times, so
    that much fuel is given; with [stride <= 0] and [offset < total] the
    Python loop never exits, which is [Diverge] here. *)
Definition cases_for_offset (offset stride total : Z) : outcome Z :=
  match cases_for_offset_loop (Z.to_nat (total - offset)) 0 offset stride total with
  | Some count => Return count
  | None => Diverge
  end.

(** The closed form the specification gives for [cases_for_offset]:
    [ceil((total - offset) / stride)] when [offset < total], else 0. *)
Definition ceil_div (a b : Z) : Z := - ((- a) / b).

Definition cases_for_offset_spec (offset stride total : Z) : Z :=
  if offset <? total then ceil_div (total - offset) stride else 0.

(** [range(n)]: empty when [n <= 0]. *)
Definition py_range (n : Z) : list Z := seqZ 0 n.

(** [sum(cases_for_offset(o, stride, total) for o in range(stride))]. *)
Definition sum_cases_for_offset (stride total : Z) : outcome Z :=
  foldl (fun acc o => a ← acc; c ← cases_for_offset o stride total; mret (a + c))
        (Return 0) (py_range stride).

(** Python's [%] and [//] on integers: they round towards minus infinity,
    as [Z.modulo] and [Z.div] do, and raise on a zero divisor. *)
Definition py_mod (a b : Z) : outcome Z :=
  if b =? 0 then Raise ZeroDivisionError else Return (a mod b).

Definition py_floordiv (a b : Z) : outcome Z :=
  if b =? 0 then Raise ZeroDivisionError else Return (a / b).

Definition cases_done_for_offset (last_gidx : option Z) (offset stride : Z) : outcome Z :=
  match last_gidx with
  | None => Return 0
  | Some last_gidx =>
      if last_gidx <? offset then Return 0
      else
        r ← py_mod (last_gidx - offset) stride;
        if negb (r =? 0) then Return 0
        else
          q ← py_floordiv (last_gidx - offset) stride;
          Return (q + 1)
  end.

(** ** Python text primitives

    A character is an [ascii], read as the code point of the same number
    (0 to 255).  The classes below are Python's on that range. *)

Definition ord (c : ascii) : Z := Z.of_N (N_of_ascii c).

Definition in_range (lo hi : Z) (c : ascii) : bool :=
  (lo <=? ord c) && (ord c <=? hi).

(** [str.isspace]: TAB to CR, FS to US, space, NEL and NBSP. *)
Definition py_isspace (c : ascii) : bool :=
  in_range 9 13 c || in_range 28 32 c || (ord c =? 133) || (ord c =? 160).

(** [str.isdecimal] (the class [\d] of a [str] pattern). *)
Definition py_isdecimal (c : ascii) : bool := in_range 48 57 c.

(** [str.isalnum]: letters, decimal digits and the other numeric characters. *)
Definition py_isalnum (c : ascii) : bool :=
  in_range 48 57 c || in_range 65 90 c || in_range 97 122 c
  || (ord c =? 170) || (ord c =? 178) || (ord c =? 179) || (ord c =? 181)
  || in_range 185 186 c || in_range 188 190 c
  || in_range 192 214 c || in_range 216 246 c || in_range 248 255 c.

(** A line boundary of [str.splitlines]: LF, VT, FF, CR, FS, GS, RS, NEL. *)
Definition py_islinebreak (c : ascii) : bool :=
  in_range 10 13 c || in_range 28 30 c || (ord c =? 133).

Definition is_empty (s : string) : bool :=
  match s with EmptyString => true | String _ _ => false end.

Fixpoint string_forall (p : ascii → bool) (s : string) : bool :=
  match s with
  | EmptyString => true
  | String c s' => p c && string_forall p s'
  end.

Fixpoint py_lstrip (s : string) : string :=
  match s with
  | EmptyString => EmptyString
  | String c s' => if py_isspace c then py_lstrip s' else s
  end.

Fixpoint py_rstrip (s : string) : string :=
  match s with
  | EmptyString => EmptyString
  | String c s' =>
      let r := py_rstrip s' in
      if is_empty r && py_isspace c then EmptyString else String c r
  end.

(** [s.strip()] *)
Definition py_strip (s : string) : string := py_rstrip (py_lstrip s).

(** [s.split()]: the maximal runs of non-blank characters, in order.  [cur]
    is the run being read. *)
Fixpoint py_split_go (cur : string) (s : string) : list string :=
  match s with
  | EmptyString => if is_empty cur then [] else [cur]
  | String c s' =>
      if py_isspace c then
        if is_empty cur then py_split_go EmptyString s'
        else cur :: py_split_go EmptyString s'
      else py_split_go (cur ++ String c EmptyString)%string s'
  end.

Definition py_split (s : string) : list string := py_split_go EmptyString s.

(** [s.splitlines()]: CR LF is one boundary, and a trailing boundary opens
    no further line. *)
Fixpoint py_splitlines_go (cur : string) (s : string) : list string :=
  match s with
  | EmptyString => if is_empty cur then [] else [cur]
  | String c s' =>
      if py_islinebreak c then
        match s' with
        | String c' s'' =>
            if (ord c =? 13) && (ord c' =? 10)
            then cur :: py_splitlines_go EmptyString s''
            else cur :: py_splitlines_go EmptyString s'
        | EmptyString => cur :: py_splitlines_go EmptyString s'
        end
      else py_splitlines_go (cur ++ String c EmptyString)%string s'
  end.

Definition py_splitlines (s : string) : list string :=
  py_splitlines_go EmptyString s.

(** [l[i:]] with Python's reading of a negative [i]. *)
Definition py_slice_from {A} (i : Z) (l : list A) : list A :=
  if i <? 0 then drop (Z.to_nat (Z.max 0 (Z.of_nat (length l) + i))) l
  else drop (Z.to_nat i) l.

(** [l[-n:]]; note that [l[-0:]] is all of [l]. *)
Definition py_tail {A} (n : Z) (l : list A) : list A := py_slice_from (- n) l.

(** The digits of an [int] literal in base 10: decimal digits, with single
    underscores allowed between two digits.  [prev_us] says that the
    previous character may not be followed by an underscore or the end (it
    is set at the start and after an underscore).  The result is the number
    of digits read and their value. *)
Fixpoint int_digits (prev_us : bool) (ndigits : nat) (acc : Z) (s : string) : option (nat * Z) :=
  match s with
  | EmptyString => if prev_us then None else Some (ndigits, acc)
  | String c s' =>
      if py_isdecimal c then int_digits false (S ndigits) (acc * 10 + (ord c - 48)) s'
      else if ord c =? 95 then
        if prev_us then None else int_digits true ndigits acc s'
      else None
  end.

(** CPython's default limit on the digits of a decimal string converted to
    an integer ([sys.int_info.default_max_str_digits]); a longer literal is a
    [ValueError]. *)
Definition int_max_str_digits : nat := 4300.

(** [int(s)] for a [str] with no blank in it (every argument of [int] in
    this program is a token of [split()] or a run of [\d]): an optional
    sign, then the digits.  [None] is a [ValueError]. *)
Definition py_int (s : string) : option Z :=
  let '(neg, body) :=
    match s with
    | String c s' =>
        if ord c =? 43 then (false, s')
        else if ord c =? 45 then (true, s')
        else (false, s)
    | EmptyString => (false, s)
    end in
  match int_digits true 0 0 body with
  | Some (ndigits, v) =>
      if (int_max_str_digits <? ndigits)%nat then None
      else Some (if neg then - v else v)
  | None => None
  end.

(** [str(n)] for an integer, as an f-string renders it. *)
Definition py_str_int (n : Z) : string := pretty n.

(** ** Files

    What the program can observe of a path: [Path.exists()],
    [Path.read_text()], which raises an [OSError] or, on bytes that do not
    decode, a [UnicodeDecodeError] (a [ValueError]), and
    [Path.read_text(errors="replace")], which can only raise an [OSError].
    The three are left independent, since the worker processes write the
    files while they are read.  [Path.exists()] is taken to answer, as the
    program takes it: it is called outside every [try]. *)

Definition Path := string.

Definition path_join (dir : Path) (name : string) : Path :=
  (dir ++ "/" ++ name)%string.

Inductive read_result : Type :=
| ReadText (text : string)
| ReadOSError
| ReadDecodeError.

Record filesystem : Type := {
  fs_exists : Path → bool;
  fs_read_text : Path → read_result;
  fs_read_text_replace : Path → option string;
}.

(** ** The checkpoint reader *)

(** [try: body except (ValueError, OSError): handler] and its kin. *)
Definition try_except {A} (body : outcome A) (caught : exn → bool)
    (handler : outcome A) : outcome A :=
  match body with
  | Raise e => if caught e then handler else Raise e
  | _ => body
  end.

Definition is_ValueError_or_OSError (e : exn) : bool :=
  match e with
  | ValueError | OSError => true
  | IndexError | ZeroDivisionError => false
  end.

(** [l[0]] *)
Definition py_first {A} (l : list A) : outcome A :=
  match l with
  | [] => Raise IndexError
  | x :: _ => Return x
  end.

(** [int(s)] as a computation. *)
Definition int_of_str (s : string) : outcome Z :=
  match py_int s with
  | Some n => Return n
  | None => Raise ValueError
  end.

Definition read_text (fs : filesystem) (path : Path) : outcome string :=
  match fs_read_text fs path with
  | ReadText text => Return text
  | ReadOSError => Raise OSError
  | ReadDecodeError => Raise ValueError
  end.

Definition parse_state_file (fs : filesystem) (path : Path) : outcome (option Z) :=
  if negb (fs_exists fs path) then Return None
  else
    try_except
      (text ← read_text fs path;
       let text := py_strip text in
       if is_empty text then Return None
       else
         tok ← py_first (py_split text);
         n ← int_of_str tok;
         Return (Some n))
      is_ValueError_or_OSError
      (Return None).

(** ** Regular expressions

    The four patterns of the program use literals, character classes,
    greedy repetition of a class, optional groups, alternation, named
    groups, [\b] and [^].  [re_go] is a backtracking matcher in
    continuation-passing style which tries the alternatives in the order
    Python's [re] does: the first one that lets the rest of the pattern
    match wins.  A position in the subject is the character before it
    (if any) and the text after it. *)

Inductive regex : Type :=
| Eps
| Chr (p : ascii → bool)
| Star (p : ascii → bool)
| Seq (r1 r2 : regex)
| Alt (r1 r2 : regex)
| Group (name : string) (r : regex)
| WordBoundary
| Bol.

(** The named groups of a match, as [Match.group] reads them. *)
Definition captures := gmap string string.

Definition group (m : captures) (name : string) : string :=
  default EmptyString (m !! name).

(** [\w], on either side of a position; the ends of the subject count as
    non-word. *)
Definition is_word (c : option ascii) : bool :=
  match c with
  | Some c => py_isalnum c || (ord c =? 95)
  | None => false
  end.

Definition next_char (s : string) : option ascii :=
  match s with
  | String c _ => Some c
  | EmptyString => None
  end.

Definition consumed (before after : string) : string :=
  substring 0 (String.length before - String.length after) before.

Definition cont := option ascii → string → captures → option captures.

Fixpoint re_go (r : regex) (k : cont) (prev : option ascii) (s : string)
    (caps : captures) {struct r} : option captures :=
  match r with
  | Eps => k prev s caps
  | Chr p =>
      match s with
      | String c s' => if p c then k (Some c) s' caps else None
      | EmptyString => None
      end
  | Star p =>
      (fix loop (prev : option ascii) (s : string) {struct s} : option captures :=
         match s with
         | String c s' =>
             if p c then
               match loop (Some c) s' with
               | Some m => Some m
               | None => k prev s caps
               end
             else k prev s caps
         | EmptyString => k prev s caps
         end) prev s
  | Seq r1 r2 => re_go r1 (re_go r2 k) prev s caps
  | Alt r1 r2 =>
      match re_go r1 k prev s caps with
      | Some m => Some m
      | None => re_go r2 k prev s caps
      end
  | Group name r1 =>
      re_go r1 (fun prev' s' caps' => k prev' s' (<[name := consumed s s']> caps'))
            prev s caps
  | WordBoundary =>
      if xorb (is_word prev) (is_word (next_char s)) then k prev s caps else None
  | Bol =>
      match prev with
      | None => k prev s caps
      | Some _ => None
      end
  end.

Definition accept : cont := fun _ _ caps => Some caps.

(** [pattern.match(line)]: a match that starts at the first character. *)
Definition re_match (r : regex) (line : string) : option captures :=
  re_go r accept None line ∅.

(** [pattern.search(line)]: the match at the leftmost position that has one. *)
Fixpoint re_search_from (r : regex) (prev : option ascii) (s : string) : option captures :=
  match re_go r accept prev s ∅ with
  | Some m => Some m
  | None =>
      match s with
      | String c s' => re_search_from r (Some c) s'
      | EmptyString => None
      end
  end.

Definition re_search (r : regex) (line : string) : option captures :=
  re_search_from r None line.

(** Pattern syntax. *)
Definition seq_of (rs : list regex) : regex := foldr Seq Eps rs.

Definition is_char (c : ascii) : ascii → bool := Ascii.eqb c.

Fixpoint lit (s : string) : regex :=
  match s with
  | EmptyString => Eps
  | String c s' => Seq (Chr (is_char c)) (lit s')
  end.

Definition plus (p : ascii → bool) : regex := Seq (Chr p) (Star p).

Definition opt (r : regex) : regex := Alt r Eps.

Fixpoint rep (n : nat) (r : regex) : regex :=
  match n with
  | O => Eps
  | S n' => Seq r (rep n' r)
  end.

(** [.] without [re.DOTALL]: anything but a line feed. *)
Definition any_char (c : ascii) : bool := negb (ord c =? 10).

Definition sign_char (c : ascii) : bool := (ord c =? 43) || (ord c =? 45).

(** The timestamp pattern
    "\d{4}-\d{2}-\d{2}T\d{2}:\d{2}:\d{2}(?:\.\d+)?(?:[+-]\d{2}:\d{2})?". *)
Definition timestamp_re : regex :=
  seq_of [rep 4 (Chr py_isdecimal); lit "-"; rep 2 (Chr py_isdecimal); lit "-";
          rep 2 (Chr py_isdecimal); lit "T"; rep 2 (Chr py_isdecimal); lit ":";
          rep 2 (Chr py_isdecimal); lit ":"; rep 2 (Chr py_isdecimal);
          opt (seq_of [lit "."; plus py_isdecimal]);
          opt (seq_of [Chr sign_char; rep 2 (Chr py_isdecimal); lit ":";
                       rep 2 (Chr py_isdecimal)])].

(** The completion-event pattern: the bracketed timestamp as group [ts],
    then "\s+DONE\s+.*\bgidx=(?P<gidx>\d+)\b.*\bdt=" and the group [dt],
    which is "\d+\.?\d*", then "s\b". *)
Definition _DONE_RE : regex :=
  seq_of [lit "["; Group "ts" timestamp_re; lit "]"; plus py_isspace; lit "DONE";
          plus py_isspace; Star any_char; WordBoundary; lit "gidx=";
          Group "gidx" (plus py_isdecimal); WordBoundary; Star any_char;
          WordBoundary; lit "dt=";
          Group "dt" (seq_of [plus py_isdecimal; opt (lit "."); Star py_isdecimal]);
          lit "s"; WordBoundary].

(** The pattern "\[(?P<ts>...)\]". *)
Definition _TS_BRACKET_RE : regex :=
  seq_of [lit "["; Group "ts" timestamp_re; lit "]"].

(** The pattern "^\[worker\s+(?P<wid>\d+)\]\s+start\s+offset=(?P<off>\d+)\b". *)
Definition _WORKER_START_RE : regex :=
  seq_of [Bol; lit "[worker"; plus py_isspace; Group "wid" (plus py_isdecimal);
          lit "]"; plus py_isspace; lit "start"; plus py_isspace; lit "offset=";
          Group "off" (plus py_isdecimal); WordBoundary].

(** The pattern
    "^\[worker\s+(?P<wid>\d+)\]\s+(done|failed)\s+offset=(?P<off>\d+)\b"; the
    unnamed group is never read, so it is not recorded. *)
Definition _WORKER_DONE_RE : regex :=
  seq_of [Bol; lit "[worker"; plus py_isspace; Group "wid" (plus py_isdecimal);
          lit "]"; plus py_isspace; Alt (lit "done") (lit "failed");
          plus py_isspace; lit "offset="; Group "off" (plus py_isdecimal);
          WordBoundary].

(** ** The data model *)

Module WorkerState.
Record t (datetime float : Type) : Type := mk {
  offset : Z;
  stride : Z;
  last_gidx : option Z;
  cases_done : Z;
  cases_total : Z;
  last_timestamp : option datetime;
  recent_times : list float;
  status : string;
}.
Arguments mk {datetime float}.
Arguments offset {datetime float}.
Arguments stride {datetime float}.
Arguments last_gidx {datetime float}.
Arguments cases_done {datetime float}.
Arguments cases_total {datetime float}.
Arguments last_timestamp {datetime float}.
Arguments recent_times {datetime float}.
Arguments status {datetime float}.
End WorkerState.

(** [sum(xs)] *)
Definition py_sum (xs : list Z) : Z := foldl Z.add 0 xs.

Module JobProgress.
Record t (datetime float : Type) : Type := mk {
  jobset : string;
  graph : string;
  rank : Z;
  n_vertices : Z;
  dim : Z;
  kdim : Z;
  total_cases : Z;
  stride : Z;
  workers : list (WorkerState.t datetime float);
}.
Arguments mk {datetime float}.
Arguments jobset {datetime float}.
Arguments graph {datetime float}.
Arguments rank {datetime float}.
Arguments n_vertices {datetime float}.
Arguments dim {datetime float}.
Arguments kdim {datetime float}.
Arguments total_cases {datetime float}.
Arguments stride {datetime float}.
Arguments workers {datetime float}.

Definition cases_done {datetime float} (self : t datetime float) : Z :=
  py_sum (WorkerState.cases_done <$> workers self).

Definition cases_remaining {datetime float} (self : t datetime float) : Z :=
  Z.max 0 (total_cases self - cases_done self).

(** [progress.workers.append(worker)] *)
Definition append_worker {datetime float} (self : t datetime float)
    (w : WorkerState.t datetime float) : t datetime float :=
  mk (jobset self) (graph self) (rank self) (n_vertices self) (dim self) (kdim self)
     (total_cases self) (stride self) (workers self ++ [w])%list.
End JobProgress.

(** ** State passing

    [worker_case_breakdown_from_logs] receives the [JobProgress] object by
    reference; it is embedded as a computation over a store that holds that
    object. *)

Definition state (S A : Type) : Type := S → A * S.

#[global] Instance state_ret {S} : MRet (state S) := fun A a s => (a, s).

#[global] Instance state_bind {S} : MBind (state S) := fun A B f m s =>
  let '(a, s') := m s in f a s'.

(** Reading an attribute of the object in the store. *)
Definition getattr {S A} (field : S → A) : state S A := fun s => (field s, s).

(** [for x in l: acc = body(x, acc)] in a monad. *)
Fixpoint py_for {M : Type → Type} `{!MBind M, !MRet M} {A B : Type}
    (l : list A) (body : A → B → M B) (acc : B) : M B :=
  match l with
  | [] => mret acc
  | x :: l' => acc' ← body x acc; py_for l' body acc'
  end.

(** [sanitize_for_filename]: alphanumerics and [._-] are kept, anything else
    becomes an underscore. *)
Definition keep_in_filename (c : ascii) : bool :=
  py_isalnum c || (ord c =? 46) || (ord c =? 95) || (ord c =? 45).

Fixpoint sanitize_for_filename (s : string) : string :=
  match s with
  | EmptyString => EmptyString
  | String c s' =>
      String (if keep_in_filename c then c else "_"%char) (sanitize_for_filename s')
  end.

(** The two paths [analyze_job] builds for an offset. *)
Definition state_file_path (notebook_dir : Path) (graph_sanitized : string)
    (rank stride offset : Z) : Path :=
  path_join notebook_dir
    ("state_" ++ graph_sanitized ++ "_r" ++ py_str_int rank ++ "_stride"
     ++ py_str_int stride ++ "_off" ++ py_str_int offset ++ ".txt")%string.

Definition log_file_path (var_dir : Path) (jobset : string) (offset : Z) : Path :=
  path_join (path_join (path_join var_dir jobset) "log")
    (jobset ++ "_off" ++ py_str_int offset ++ ".log")%string.

(** The bounded tail of a log: [read_text(errors="replace").splitlines()[-max_lines:]],
    [None] when the file does not exist or reading it raises an [OSError]. *)
Definition read_log_tail (fs : filesystem) (path : Path) (max_lines : Z) : option (list string) :=
  if negb (fs_exists fs path) then None
  else
    match fs_read_text_replace fs path with
    | Some text => Some (py_tail max_lines (py_splitlines text))
    | None => None
    end.

(** [x is None] *)
Definition py_is_None {A} (x : option A) : bool :=
  match x with
  | None => true
  | Some _ => false
  end.

(** The status heuristic of [analyze_job]. *)
Definition classify_status (cases_done cases_total : Z) (last_gidx : option Z) : string :=
  if (cases_total <=? cases_done) && (0 <? cases_total) then "completed"
  else if (cases_done =? 0) && py_is_None last_gidx then "not_started"
  else "running".

(** ** The attribution engine *)

(** The local variables of the scan of one log: [current_wid], [per_worker]
    and [all_gidx]. *)
Record scan : Type := mk_scan {
  current_wid : option Z;
  per_worker : gmap Z (gset Z);
  all_gidx : gset Z;
}.

(** [per_worker.setdefault(wid, set()).add(gidx)] *)
Definition record_gidx (wid gidx : Z) (per_worker : gmap Z (gset Z)) : gmap Z (gset Z) :=
  <[wid := {[gidx]} ∪ default ∅ (per_worker !! wid)]> per_worker.

(** The body of [for line in lines], with its three [continue]s. *)
Definition scan_line (line : string) (st : scan) : scan :=
  match re_match _WORKER_START_RE line with
  | Some mws =>
      mk_scan (py_int (group mws "wid")) (per_worker st) (all_gidx st)
  | None =>
      match re_search _DONE_RE line with
      | Some md =>
          match py_int (group md "gidx") with
          | None => st
          | Some gidx =>
              let all_gidx' := {[gidx]} ∪ all_gidx st in
              let wid := match current_wid st with Some w => w | None => 0 end in
              mk_scan (current_wid st) (record_gidx wid gidx (per_worker st)) all_gidx'
          end
      | None =>
          match re_match _WORKER_DONE_RE line with
          | Some _ => mk_scan None (per_worker st) (all_gidx st)
          | None => st
          end
      end
  end.

Definition scan_lines (lines : list string) (st : scan) : scan :=
  foldl (fun st line => scan_line line st) st lines.

(** The scan of one log, started with no current worker; the two
    accumulators are carried over from the logs before. *)
Definition scan_log (lines : list string) (acc : gmap Z (gset Z) * gset Z)
    : gmap Z (gset Z) * gset Z :=
  let st := scan_lines lines (mk_scan None acc.1 acc.2) in
  (per_worker st, all_gidx st).

(** How the specification names the lines of a log, by the patterns they
    match: a worker-start line and the identity it is tagged with ([None]
    when [int] rejects it), a completion event and its global index, and a
    done/failed line. *)
Definition worker_start (line : string) : option (option Z) :=
  (fun m => py_int (group m "wid")) <$> re_match _WORKER_START_RE line.

Definition completion_event (line : string) : option Z :=
  re_search _DONE_RE line ≫= fun m => py_int (group m "gidx").

Definition worker_end (line : string) : bool :=
  bool_decide (is_Some (re_match _WORKER_DONE_RE line)).

(** [gidx] is in the set of [wid]; [gidx] is in the set of some identity. *)
Definition attributed (wid gidx : Z) (per_worker : gmap Z (gset Z)) : Prop :=
  ∃ s, per_worker !! wid = Some s ∧ gidx ∈ s.

Definition recorded (gidx : Z) (per_worker : gmap Z (gset Z)) : Prop :=
  ∃ wid, attributed wid gidx per_worker.

(** The attribution of [gidx] to [wid] is backed by the lines [seen]: one of
    them is a completion event with that index and not a worker-start line,
    and [wid] is 0 or the identity of a worker-start line among them. *)
Definition backed_by (seen : list string) (wid gidx : Z) : Prop :=
  ∃ line, line ∈ seen ∧ worker_start line = None
          ∧ completion_event line = Some gidx
          ∧ (wid = 0 ∨ ∃ start, start ∈ seen ∧ worker_start start = Some (Some wid)).

(** The invariant of the scan of one log that started from the
    attributions [pw0]. *)
Definition scan_backed (pw0 : gmap Z (gset Z)) (seen : list string) (st : scan) : Prop :=
  (∀ wid g, attributed wid g (per_worker st) →
            attributed wid g pw0 ∨ backed_by seen wid g)
  ∧ (∀ id, current_wid st = Some id →
           ∃ start, start ∈ seen ∧ worker_start start = Some (Some id)).

(** [all_gidx] is the union of the sets of [per_worker]. *)
Definition union_of (per_worker : gmap Z (gset Z)) (all_gidx : gset Z) : Prop :=
  ∀ gidx, gidx ∈ all_gidx ↔ recorded gidx per_worker.

(** ** Configuration readers *)

(** [line.split("=", 1)] for a line that holds an equals sign: the text
    before the first one and the text after it; [None] when
    ["=" not in line]. *)
Fixpoint split_at_eq (s : string) : option (string * string) :=
  match s with
  | EmptyString => None
  | String c s' =>
      if ord c =? 61 then Some (EmptyString, s')
      else (fun kv => (String c kv.1, kv.2)) <$> split_at_eq s'
  end.

(** [line.startswith("#")] *)
Definition starts_with_hash (s : string) : bool :=
  match s with
  | String c _ => ord c =? 35
  | EmptyString => false
  end.

(** [v[-1]] of a non-empty string. *)
Definition last_char (s : string) : option ascii :=
  String.get (String.length s - 1) s.

Definition is_quoted_by (q : Z) (v : string) : bool :=
  match next_char v, last_char v with
  | Some c, Some c' => (ord c =? q) && (ord c' =? q)
  | _, _ => false
  end.

(** The quote stripping of [parse_env_file]: one pair of matching double or
    single quotes around a value of at least two characters is removed
    ([v[1:-1]]). *)
Definition unquote (v : string) : string :=
  if (2 <=? String.length v)%nat && (is_quoted_by 34 v || is_quoted_by 39 v)
  then substring 1 (String.length v - 2) v
  else v.

(** What one line of an env file binds: nothing for a blank line, a comment
    and a line with no equals sign. *)
Definition env_binding (raw : string) : option (string * string) :=
  let line := py_strip raw in
  if is_empty line || starts_with_hash line then None
  else
    match split_at_eq line with
    | None => None
    | Some (k, v) => Some (py_strip k, unquote (py_strip v))
    end.

(** The body of the loop of [parse_env_file]: [env[k] = v]. *)
Definition parse_env_line (env : gmap string string) (raw : string)
    : gmap string string :=
  match env_binding raw with
  | Some (k, v) => <[k := v]> env
  | None => env
  end.

Definition parse_env_lines (lines : list string) : gmap string string :=
  foldl parse_env_line ∅ lines.

(** [parse_env_file]: [read_text] is not guarded, so its errors reach the
    caller. *)
Definition parse_env_file (fs : filesystem) (path : Path)
    : outcome (gmap string string) :=
  txt ← read_text fs path;
  Return (parse_env_lines (py_splitlines txt)).

(** The loop of [infer_from_base_args] over [enumerate(tokens)]; [rest] is
    [tokens[i:]]. *)
Fixpoint infer_from_tokens (out : gmap string string) (rest : list string)
    : gmap string string :=
  match rest with
  | [] => out
  | t :: rest' =>
      let out :=
        match rest' with
        | next :: _ =>
            let out := if String.eqb t "--graph" then <["graph" := next]> out else out in
            if String.eqb t "--rank" then <["rank" := next]> out else out
        | [] => out
        end in
      infer_from_tokens out rest'
  end.

(** [infer_from_base_args], given [shlex.split] ([None] is its
    [ValueError], on which the function returns the empty dict). *)
Definition infer_from_base_args (shlex_split : string → option (list string))
    (sage_base_args : string) : gmap string string :=
  match shlex_split sage_base_args with
  | None => ∅
  | Some tokens => infer_from_tokens ∅ tokens
  end.

(** [get_n_vertices]: the registry of known graphs. *)
Definition get_n_vertices (graph : string) : outcome Z :=
  if String.eqb graph "shrikhande" || String.eqb graph "rook" then Return 16
  else if String.eqb graph "petersen" then Return 10
  else Raise ValueError.

(** ** Descriptions used by the further properties

    The character classes, the rendering of an env line and the reading of
    a flag in which the properties of the readers are stated. *)

Definition not_blank (c : ascii) : bool := negb (py_isspace c).

Definition not_linebreak (c : ascii) : bool := negb (py_islinebreak c).

(** The characters of [str(n)]: a minus sign and decimal digits. *)
Definition sign_or_digit (c : ascii) : bool := py_isdecimal c || (ord c =? 45).

Definition not_eq_sign (c : ascii) : bool := negb (ord c =? 61).

(** A character that can neither end a path component nor be taken for a
    blank. *)
Definition not_slash_or_blank (c : ascii) : bool :=
  negb (ord c =? 47) && negb (py_isspace c).

(** The line [k=qvq] of an env file, for a quote character [q]. *)
Definition quoted_line (q : ascii) (kv : string * string) : string :=
  (kv.1 ++ "=" ++ String q (kv.2 ++ String q EmptyString))%string.

(** [env[k] = v] *)
Definition env_assign (env : gmap string string) (kv : string * string)
    : gmap string string := <[kv.1 := kv.2]> env.

(** [v] is the token after the last occurrence of [flag] that has a token
    after it. *)
Definition follows_last (flag : string) (tokens : list string) (v : string) : Prop :=
  ∃ i : nat, tokens !! i = Some flag ∧ tokens !! S i = Some v
    ∧ ∀ j : nat, (i < j)%nat → tokens !! j = Some flag → tokens !! S j = None.

(** [flag] occurs as the last token only, if at all. *)
Definition never_followed (flag : string) (tokens : list string) : Prop :=
  ∀ j : nat, tokens !! j = Some flag → tokens !! S j = None.

(** One round of the loop of [infer_from_base_args] at a token [t] that has
    a successor [next]. *)
Definition infer_step (out : gmap string string) (t next : string)
    : gmap string string :=
  let out := if String.eqb t "--graph" then <["graph" := next]> out else out in
  if String.eqb t "--rank" then <["rank" := next]> out else out.

(** ** Artifacts for the examples

    A file system that holds the given text files and nothing else: a path
    outside the list does not exist, and reading it is an [OSError]. *)

Definition find_file (files : list (Path * string)) (path : Path) : option string :=
  snd <$> List.find (fun entry => String.eqb (fst entry) path) files.

Definition fs_of_files (files : list (Path * string)) : filesystem :=
  {| fs_exists := fun path => bool_decide (is_Some (find_file files path));
     fs_read_text := fun path =>
       match find_file files path with
       | Some text => ReadText text
       | None => ReadOSError
       end;
     fs_read_text_replace := find_file files |}.

Definition LF : string := String (ascii_of_nat 10) EmptyString.

(** [text] from its lines, each ended by a line feed. *)
Definition unlines (lines : list string) : string :=
  foldr (fun line rest => line ++ LF ++ rest)%string EmptyString lines.

(** The end-to-end example of the specification: 16 vertices, rank 3 and
    stride 4, with a checkpoint of 452 for offset 0 and of 6 for offset 2. *)
Definition example_fs : filesystem :=
  fs_of_files
    [("nb/state_shrikhande_r3_stride4_off0.txt", "452" ++ LF);
     ("nb/state_shrikhande_r3_stride4_off2.txt", "6" ++ LF)]%string.

(** The same job with a checkpoint for offset 0 that lies beyond the last
    global index (454). *)
Definition overshoot_fs : filesystem :=
  fs_of_files [("nb/state_shrikhande_r3_stride4_off0.txt", "4000" ++ LF)]%string.

(** The log of the specification's attribution example. *)
Definition example_log : list string :=
  ["[worker 3] start offset=0 stride=4";
   "[2024-01-01T00:00:01] DONE case gidx=0 dt=1.0s";
   "[2024-01-01T00:00:02] DONE case gidx=4 dt=1.5s";
   "[worker 3] done offset=0";
   "[2024-01-01T00:00:03] DONE case gidx=8 dt=2s"]%string.

(** Lines that match two of the patterns at once. *)
Definition start_and_completion_line : string :=
  "[worker 3] start offset=0 [2024-01-01T00:00:04] DONE gidx=12 dt=1.0s".

Definition end_and_completion_line : string :=
  "[worker 3] done offset=0 [2024-01-01T00:00:05] DONE gidx=16 dt=1.0s".

(** A job of one offset whose log is the single line above that is both a
    worker-start line and a completion event. *)
Definition overlap_fs : filesystem :=
  fs_of_files [("var/job/log/job_off0.log", unlines [start_and_completion_line])].

(** A job of one offset whose log is the attribution example. *)
Definition logged_fs : filesystem :=
  fs_of_files [("var/job/log/job_off0.log", unlines example_log)].

(** A checkpoint and a log for offset 1 of a job of stride 2. *)
Definition timed_fs : filesystem :=
  fs_of_files
    [("nb/state_petersen_r2_stride2_off1.txt", (" " ++ py_str_int 7 ++ LF)%string);
     ("var/job/log/job_off1.log", unlines example_log)].

Definition DQUOTE : ascii := ascii_of_nat 34.

(** An env file: a comment, a plain binding, a binding with blanks around
    the equals sign, a quoted value, and a key that is bound again. *)
Definition example_env : string :=
  unlines ["# sagequeue"; "JOBSET=shri_r3"; " STRIDE = 4 ";
           quoted_line DQUOTE ("SAGE_BASE_ARGS", "--graph shrikhande --rank 3");
           "no equals sign here";
           "STRIDE=8"]%string.

Definition env_fs : filesystem := fs_of_files [("sagequeue.env", example_env)].

(** An env file written with every value quoted. *)
Definition quoted_bindings : list (string * string) :=
  [("JOBSET", "shri_r3"); ("SAGE_BASE_ARGS", "--graph shrikhande --rank 3");
   ("JOBSET", " other ")]%string.

Definition quoted_env_fs : filesystem :=
  fs_of_files [("sagequeue.env", unlines (quoted_line DQUOTE <$> quoted_bindings))].

Section Monitor.

(** [datetime.fromisoformat] and [float], both applied to the text of a
    group; [None] is their [ValueError].  The claims below do not depend on
    what they compute. *)
Context {datetime float : Type}.
Context (datetime_fromisoformat : string → option datetime).
Context (py_float : string → option float).

Abbreviation WorkerState := (WorkerState.t datetime float).
Abbreviation JobProgress := (JobProgress.t datetime float).

(** ** The log event extractor *)

Definition parse_log_line (line : string) : option (datetime * float) :=
  match re_search _DONE_RE line with
  | None => None
  | Some m =>
      ts ← datetime_fromisoformat (group m "ts");
      dt ← py_float (group m "dt");
      Some (ts, dt)
  end.

Definition parse_log_times (fs : filesystem) (path : Path) (max_lines : Z)
    : list (datetime * float) :=
  match read_log_tail fs path max_lines with
  | None => []
  | Some lines =>
      foldl (fun results line =>
               match parse_log_line line with
               | Some r => (results ++ [r])%list
               | None => results
               end) [] lines
  end.

(** The timestamp [get_last_activity] reads off a line, if any: the first
    bracketed stamp of the line, when [fromisoformat] accepts it. *)
Definition line_timestamp (line : string) : option datetime :=
  re_search _TS_BRACKET_RE line ≫= fun m => datetime_fromisoformat (group m "ts").

(** The loop of [get_last_activity] over [reversed(lines)]. *)
Fixpoint first_timestamp (lines : list string) : option datetime :=
  match lines with
  | [] => None
  | line :: rest =>
      match re_search _TS_BRACKET_RE line with
      | None => first_timestamp rest
      | Some m =>
          match datetime_fromisoformat (group m "ts") with
          | Some ts => Some ts
          | None => first_timestamp rest
          end
      end
  end.

Definition get_last_activity (fs : filesystem) (path : Path) (max_lines : Z)
    : option datetime :=
  match read_log_tail fs path max_lines with
  | None => None
  | Some lines => first_timestamp (reverse lines)
  end.

(** ** The progress aggregator *)

(** The body of [for offset in range(stride)] in [analyze_job]. *)
Definition analyze_offset (fs : filesystem) (jobset : string) (rank stride : Z)
    (notebook_dir var_dir : Path) (log_max_lines : Z) (total_cases : Z)
    (graph_sanitized : string) (offset : Z) (progress : JobProgress)
    : outcome JobProgress :=
  let state_file := state_file_path notebook_dir graph_sanitized rank stride offset in
  let log_file := log_file_path var_dir jobset offset in
  last_gidx ← parse_state_file fs state_file;
  cases_total ← cases_for_offset offset stride total_cases;
  cases_done ← cases_done_for_offset last_gidx offset stride;
  let times := parse_log_times fs log_file log_max_lines in
  let recent_times := snd <$> py_slice_from (-50) times in
  let last_ts := get_last_activity fs log_file log_max_lines in
  let status := classify_status cases_done cases_total last_gidx in
  let worker :=
    WorkerState.mk offset stride last_gidx cases_done cases_total last_ts
                   recent_times status in
  Return (JobProgress.append_worker progress worker).

Definition analyze_job (fs : filesystem) (jobset graph : string)
    (rank n_vertices stride : Z) (notebook_dir var_dir : Path)
    (log_max_lines : Z) : outcome JobProgress :=
  let dim := n_vertices - 1 in
  let kdim := dim - rank in
  total_cases ← math_comb dim kdim;
  let progress :=
    JobProgress.mk jobset graph rank n_vertices dim kdim total_cases stride [] in
  let graph_sanitized := sanitize_for_filename graph in
  py_for (py_range stride)
         (analyze_offset fs jobset rank stride notebook_dir var_dir log_max_lines
                         total_cases graph_sanitized)
         progress.

(** ** The attribution pass over all logs *)

(** The body of [for w in progress.workers]. *)
Definition breakdown_worker (fs : filesystem) (var_dir : Path) (log_max_lines : Z)
    (jobset : string) (w : WorkerState) (acc : gmap Z (gset Z) * gset Z)
    : state JobProgress (gmap Z (gset Z) * gset Z) :=
  let log_file := log_file_path var_dir jobset (WorkerState.offset w) in
  match read_log_tail fs log_file log_max_lines with
  | None => mret acc
  | Some lines => mret (scan_log lines acc)
  end.

Definition worker_case_breakdown_from_logs (fs : filesystem) (var_dir : Path)
    (log_max_lines : Z) : state JobProgress (gmap Z (gset Z) * gset Z) :=
  jobset ← getattr JobProgress.jobset;
  workers ← getattr JobProgress.workers;
  py_for workers (breakdown_worker fs var_dir log_max_lines jobset) (∅, ∅).

(** ** The analysis step of [main]

    How [main] reaches [analyze_job] once its arguments are settled: the
    number of vertices is [--n] when it is given ([arg_n]) and is looked up
    in the registry otherwise.  Neither call is guarded. *)
Definition main_analysis (fs : filesystem) (jobset graph : string) (rank : Z)
    (arg_n : option Z) (stride : Z) (notebook_dir var_dir : Path)
    (log_max_lines : Z) : outcome JobProgress :=
  n_vertices ← match arg_n with
               | Some n => Return n
               | None => get_n_vertices graph
               end;
  analyze_job fs jobset graph rank n_vertices stride notebook_dir var_dir
              log_max_lines.

(** ** Closed descriptions used in the proofs

    What one round of the loop over the workers does to the accumulators
    of the attribution pass, what [cases_done_for_offset] and
    [parse_state_file] return, and the
    [WorkerState] that [analyze_job] appends for an offset, written without
    the state and exception plumbing; the lemmas [breakdown_eq],
    [cases_done_for_offset_eq], [parse_state_file_eq] and [analyze_offset_eq]
    relate them to the code. *)

Definition breakdown_step (fs : filesystem) (var_dir : Path) (log_max_lines : Z)
    (jobset : string) (acc : gmap Z (gset Z) * gset Z) (w : WorkerState)
    : gmap Z (gset Z) * gset Z :=
  match read_log_tail fs (log_file_path var_dir jobset (WorkerState.offset w))
          log_max_lines with
  | None => acc
  | Some lines => scan_log lines acc
  end.

Definition cases_done_value (last_gidx : option Z) (offset stride : Z) : Z :=
  match last_gidx with
  | None => 0
  | Some last_gidx =>
      if last_gidx <? offset then 0
      else if negb ((last_gidx - offset) mod stride =? 0) then 0
      else (last_gidx - offset) / stride + 1
  end.

Definition checkpoint_value (fs : filesystem) (path : Path) : option Z :=
  if fs_exists fs path then
    match fs_read_text fs path with
    | ReadText text => hd_error (py_split text) ≫= py_int
    | _ => None
    end
  else None.

Definition offset_state (fs : filesystem) (rank stride : Z)
    (notebook_dir var_dir : Path) (log_max_lines : Z) (graph_sanitized : string)
    (jobset : string) (total_cases : Z) (offset : Z) : WorkerState :=
  let last_gidx :=
    checkpoint_value fs
      (state_file_path notebook_dir graph_sanitized rank stride offset) in
  let log_file := log_file_path var_dir jobset offset in
  let cases_total := cases_for_offset_spec offset stride total_cases in
  let cases_done := cases_done_value last_gidx offset stride in
  WorkerState.mk offset stride last_gidx cases_done cases_total
    (get_last_activity fs log_file log_max_lines)
    (snd <$> py_slice_from (-50) (parse_log_times fs log_file log_max_lines))
    (classify_status cases_done cases_total last_gidx).

(* ================================================================== *)
(** * Properties *)

Section Sizer.

Implicit Types offset stride total count gidx : Z.

Lemma ceil_div_bounds a b :
  0 < b → (ceil_div a b - 1) * b < a ≤ ceil_div a b * b.
Proof.
  intros Hb. unfold ceil_div.
  pose proof (Z.div_mod (- a) b ltac:(lia)) as Hdm.
  pose proof (Z.mod_pos_bound (- a) b Hb) as Hm.
  nia.
Qed.

Lemma ceil_div_le_0 a b : 0 < b → a ≤ 0 → ceil_div a b ≤ 0.
Proof.
  intros Hb Ha. pose proof (ceil_div_bounds a b Hb). nia.
Qed.

Lemma ceil_div_pos a b : 0 < b → 0 < a → 0 < ceil_div a b.
Proof.
  intros Hb Ha. pose proof (ceil_div_bounds a b Hb). nia.
Qed.

Lemma ceil_div_shift a b : 0 < b → ceil_div (a - b) b = ceil_div a b - 1.
Proof.
  intros Hb. unfold ceil_div.
  replace (- (a - b)) with (- a + 1 * b) by lia.
  rewrite Z.div_add by lia. lia.
Qed.

(** With a positive stride the loop returns once it has enough fuel, and its
    result is the count it started from plus the closed form. *)
Lemma cases_for_offset_loop_spec fuel count gidx stride total :
  1 ≤ stride →
  (total - gidx ≤ Z.of_nat fuel) →
  cases_for_offset_loop fuel count gidx stride total
  = Some (count + cases_for_offset_spec gidx stride total).
Proof.
  intros Hs. revert count gidx.
  induction fuel as [|fuel IH]; intros count gidx Hfuel; simpl.
  - unfold cases_for_offset_spec.
    destruct (Z.ltb_spec gidx total); [lia|]. f_equal; lia.
  - unfold cases_for_offset_spec.
    destruct (Z.ltb_spec gidx total) as [Hlt|Hge]; [|f_equal; lia].
    rewrite IH by lia. f_equal. unfold cases_for_offset_spec.
    replace (total - (gidx + stride)) with (total - gidx - stride) by lia.
    destruct (Z.ltb_spec (gidx + stride) total) as [Hlt'|Hge'].
    + rewrite ceil_div_shift by lia. lia.
    + pose proof (ceil_div_bounds (total - gidx) stride ltac:(lia)). nia.
Qed.

(** With a non-positive stride and [gidx < total] no amount of fuel lets the
    loop return: the Python loop does not terminate. *)
Lemma cases_for_offset_loop_diverges fuel count gidx stride total :
  stride ≤ 0 → gidx < total →
  cases_for_offset_loop fuel count gidx stride total = None.
Proof.
  intros Hs. revert count gidx.
  induction fuel as [|fuel IH]; intros count gidx Hlt; simpl;
    destruct (Z.ltb_spec gidx total); try lia; [done|].
  apply IH. lia.
Qed.

Lemma cases_for_offset_returns offset stride total :
  1 ≤ stride →
  cases_for_offset offset stride total
  = Return (cases_for_offset_spec offset stride total).
Proof.
  intros Hs. unfold cases_for_offset.
  rewrite cases_for_offset_loop_spec by lia. f_equal.
Qed.

(** With a non-positive stride the call returns 0 when there is nothing to
    count and does not return otherwise. *)
Lemma cases_for_offset_nonpositive_stride offset stride total :
  stride ≤ 0 →
  cases_for_offset offset stride total
  = if offset <? total then Diverge else Return 0.
Proof.
  intros Hs. unfold cases_for_offset.
  destruct (Z.ltb_spec offset total) as [Hlt|Hge].
  - by rewrite cases_for_offset_loop_diverges.
  - destruct (Z.to_nat (total - offset)); simpl;
      by destruct (Z.ltb_spec offset total); [lia|].
Qed.

(** *** Sums over the offsets *)

Lemma py_sum_from (a : Z) (xs : list Z) : foldl Z.add a xs = a + py_sum xs.
Proof.
  unfold py_sum. revert a. induction xs as [|x xs IH]; intros a; simpl; [lia|].
  rewrite (IH (a + x)), (IH (0 + x)). lia.
Qed.

Lemma py_sum_cons (x : Z) (xs : list Z) : py_sum (x :: xs) = x + py_sum xs.
Proof. unfold py_sum at 1. simpl. apply py_sum_from. Qed.

Lemma py_sum_app (xs ys : list Z) : py_sum (xs ++ ys) = py_sum xs + py_sum ys.
Proof.
  induction xs as [|x xs IH]; simpl; [done|]. rewrite !py_sum_cons, IH. lia.
Qed.

Lemma py_sum_le (f g : Z → Z) (l : list Z) :
  (∀ x, x ∈ l → f x ≤ g x) → py_sum (f <$> l) ≤ py_sum (g <$> l).
Proof.
  induction l as [|x l IH]; intros H; [done|].
  rewrite !fmap_cons, !py_sum_cons.
  pose proof (H x ltac:(left)).
  pose proof (IH (fun y Hy => H y ltac:(by right))). lia.
Qed.

Lemma py_sum_succ (f g : Z → Z) (l : list Z) :
  (∀ x, x ∈ l → f x = g x + 1) →
  py_sum (f <$> l) = py_sum (g <$> l) + Z.of_nat (length l).
Proof.
  induction l as [|x l IH]; intros H; [done|].
  rewrite !fmap_cons, !py_sum_cons, (H x) by left.
  rewrite IH by (intros y Hy; apply H; by right). simpl length. lia.
Qed.

(** How many of the [n] integers from [a] on lie below [t]. *)
Lemma py_sum_indicator (n : nat) (a t : Z) :
  py_sum ((fun o => if o <? t then 1 else 0) <$> seqZ a (Z.of_nat n))
  = Z.max 0 (Z.min (t - a) (Z.of_nat n)).
Proof.
  revert a. induction n as [|n IH]; intros a.
  - rewrite seqZ_nil by lia. unfold py_sum; simpl. lia.
  - rewrite seqZ_cons by lia. rewrite fmap_cons, py_sum_cons.
    replace (Z.pred (Z.of_nat (S n))) with (Z.of_nat n) by lia.
    rewrite IH. destruct (Z.ltb_spec a t); lia.
Qed.

(** The closed forms of the [stride] offsets add up to [total]: by
    induction on [total] in steps of [stride], each offset owning one case
    more when [total] grows by [stride]. *)
Lemma sum_spec_total (stride total : Z) :
  1 ≤ stride → 0 ≤ total →
  py_sum ((fun o => cases_for_offset_spec o stride total) <$> py_range stride) = total.
Proof.
  intros Hs Ht. pattern total. apply Zlt_0_ind; [clear total Ht|done].
  intros total IH Ht. unfold py_range.
  destruct (Z.le_gt_cases total stride) as [Hle|Hgt].
  - replace (seqZ 0 stride) with (seqZ 0 (Z.of_nat (Z.to_nat stride)))
      by (f_equal; lia).
    erewrite list_fmap_ext; [rewrite (py_sum_indicator _ 0 total); lia|].
    intros i o Ho%list_elem_of_lookup_2%elem_of_seqZ. simpl.
    unfold cases_for_offset_spec. destruct (Z.ltb_spec o total); [|done].
    pose proof (ceil_div_bounds (total - o) stride ltac:(lia)). nia.
  - rewrite (py_sum_succ _ (fun o => cases_for_offset_spec o stride (total - stride))).
    + unfold py_range in IH. rewrite IH by lia. rewrite length_seqZ. lia.
    + intros o Ho%elem_of_seqZ. unfold cases_for_offset_spec.
      destruct (Z.ltb_spec o total); [|lia].
      replace (total - stride - o) with (total - o - stride) by lia.
      destruct (Z.ltb_spec o (total - stride)).
      * rewrite ceil_div_shift by lia. lia.
      * pose proof (ceil_div_bounds (total - o) stride ltac:(lia)). nia.
Qed.

Lemma sum_cases_fold (stride total : Z) (l : list Z) (a : Z) :
  1 ≤ stride →
  foldl (fun acc o => a ← acc; c ← cases_for_offset o stride total; mret (a + c))
        (Return a) l
  = Return (a + py_sum ((fun o => cases_for_offset_spec o stride total) <$> l)).
Proof.
  intros Hs. revert a. induction l as [|o l IH]; intros a.
  - simpl. unfold py_sum; simpl. f_equal; lia.
  - rewrite fmap_cons, py_sum_cons. simpl foldl.
    rewrite cases_for_offset_returns by done. simpl.
    unfold mret, outcome_ret. rewrite IH. f_equal; lia.
Qed.

(** C5: for [offset >= 0], [stride >= 1] and [total >= 0] the counting loop
    of [cases_for_offset] returns the closed form of the specification:
    [ceil((total - offset) / stride)] when [offset < total], and 0 when
    [offset >= total]. *)
Theorem cases_for_offset_closed_form (offset stride total : Z) :
  0 ≤ offset → 1 ≤ stride → 0 ≤ total →
  cases_for_offset offset stride total
  = Return (cases_for_offset_spec offset stride total)
  ∧ (offset < total →
     cases_for_offset offset stride total
     = Return (ceil_div (total - offset) stride))
  ∧ (total ≤ offset → cases_for_offset offset stride total = Return 0).
Proof.
  intros Ho Hs Ht. rewrite cases_for_offset_returns by done.
  unfold cases_for_offset_spec.
  destruct (Z.ltb_spec offset total); repeat split; try done; lia.
Qed.

Lemma cases_for_offset_closed_form_witness :
  0 ≤ 0 ∧ 1 ≤ 4 ∧ 0 ≤ 455
  ∧ cases_for_offset 0 4 455 = Return (ceil_div (455 - 0) 4)
  ∧ ceil_div (455 - 0) 4 = 114.
Proof.
  split; [lia|]. split; [lia|]. split; [lia|]. split; [|reflexivity].
  apply (cases_for_offset_closed_form 0 4 455); lia.
Defined.

(** C6: for [stride >= 1] and [total >= 0], the sum of
    [cases_for_offset(o, stride, total)] over the offsets [o] in
    [range(stride)] is [total]. *)
Theorem sum_cases_for_offset_total (stride total : Z) :
  1 ≤ stride → 0 ≤ total → sum_cases_for_offset stride total = Return total.
Proof.
  intros Hs Ht. unfold sum_cases_for_offset.
  rewrite sum_cases_fold by done. rewrite sum_spec_total by done. done.
Qed.

Lemma sum_cases_for_offset_total_witness :
  1 ≤ 4 ∧ 0 ≤ 455 ∧ sum_cases_for_offset 4 455 = Return 455.
Proof.
  split; [lia|]. split; [lia|]. apply (sum_cases_for_offset_total 4 455); lia.
Defined.

(** *** The done count of an offset *)

Lemma cases_done_for_offset_eq (last_gidx : option Z) (offset stride : Z) :
  stride ≠ 0 →
  cases_done_for_offset last_gidx offset stride
  = Return (cases_done_value last_gidx offset stride).
Proof.
  intros Hs. unfold cases_done_for_offset, cases_done_value, py_mod, py_floordiv.
  destruct last_gidx as [g|]; [|done].
  destruct (g <? offset); [done|].
  destruct (Z.eqb_spec stride 0); [done|]. simpl.
  by destruct (_ =? 0).
Qed.

(** With a zero stride the function raises as soon as it has to divide. *)
Lemma cases_done_for_offset_zero_stride (g offset : Z) :
  offset ≤ g → cases_done_for_offset (Some g) offset 0 = Raise ZeroDivisionError.
Proof.
  intros Hg. unfold cases_done_for_offset.
  by destruct (Z.ltb_spec g offset); [lia|].
Qed.

(** C2: for [offset >= 0] and [stride >= 1], [cases_done_for_offset] returns
    0 for an absent [last_index], 0 when [last_index < offset], 0 when
    [(last_index - offset) mod stride <> 0], and
    [(last_index - offset) / stride + 1] otherwise; in particular it returns
    [k + 1] at [last_index = offset + k * stride] for every [k >= 0]. *)
Theorem cases_done_for_offset_cases (offset stride : Z) :
  0 ≤ offset → 1 ≤ stride →
  cases_done_for_offset None offset stride = Return 0
  ∧ (∀ last_index, last_index < offset →
       cases_done_for_offset (Some last_index) offset stride = Return 0)
  ∧ (∀ last_index, (last_index - offset) mod stride ≠ 0 →
       cases_done_for_offset (Some last_index) offset stride = Return 0)
  ∧ (∀ last_index, offset ≤ last_index → (last_index - offset) mod stride = 0 →
       cases_done_for_offset (Some last_index) offset stride
       = Return ((last_index - offset) / stride + 1))
  ∧ (∀ k, 0 ≤ k →
       cases_done_for_offset (Some (offset + k * stride)) offset stride
       = Return (k + 1)).
Proof.
  intros Ho Hs. split; [done|].
  repeat split; intros; rewrite cases_done_for_offset_eq by lia;
    unfold cases_done_value; f_equal.
  - destruct (Z.ltb_spec last_index offset); [done|lia].
  - destruct (Z.ltb_spec last_index offset); [done|].
    destruct (Z.eqb_spec ((last_index - offset) mod stride) 0); [lia|done].
  - destruct (Z.ltb_spec last_index offset); [lia|].
    by destruct (Z.eqb_spec ((last_index - offset) mod stride) 0).
  - destruct (Z.ltb_spec (offset + k * stride) offset); [nia|].
    replace (offset + k * stride - offset) with (k * stride) by lia.
    rewrite Z.mod_mul, Z.div_mul by lia. done.
Qed.

Lemma cases_done_for_offset_cases_witness :
  0 ≤ 2 ∧ 1 ≤ 4 ∧ cases_done_for_offset (Some (2 + 1 * 4)) 2 4 = Return (1 + 1).
Proof.
  split; [lia|]. split; [lia|].
  apply (cases_done_for_offset_cases 2 4); lia.
Defined.

(** A checkpoint that is a valid global index never counts more cases than
    the offset owns. *)
Lemma cases_done_le_cases_total (last_gidx : option Z) (offset stride total : Z) :
  1 ≤ stride →
  (∀ g, last_gidx = Some g → g < total) →
  cases_done_value last_gidx offset stride
  ≤ cases_for_offset_spec offset stride total.
Proof.
  intros Hs Hlast. unfold cases_done_value, cases_for_offset_spec.
  destruct last_gidx as [g|].
  - specialize (Hlast g eq_refl).
    destruct (Z.ltb_spec g offset).
    { destruct (Z.ltb_spec offset total); [|lia].
      pose proof (ceil_div_pos (total - offset) stride); lia. }
    destruct (Z.eqb_spec ((g - offset) mod stride) 0) as [Hmod|]; simpl.
    2: { destruct (Z.ltb_spec offset total); [|lia].
         pose proof (ceil_div_pos (total - offset) stride); lia. }
    destruct (Z.ltb_spec offset total); [|lia].
    pose proof (ceil_div_bounds (total - offset) stride ltac:(lia)).
    pose proof (Z.div_mod (g - offset) stride ltac:(lia)). nia.
  - destruct (Z.ltb_spec offset total); [|lia].
    pose proof (ceil_div_pos (total - offset) stride); lia.
Qed.

Lemma binomial_nonneg (n k : nat) : 0 ≤ binomial n k.
Proof.
  revert k. induction n as [|n IH]; intros [|k]; simpl; try lia.
  pose proof (IH k). pose proof (IH (S k)). lia.
Qed.

End Sizer.

(** ** The checkpoint reader *)

Section Checkpoint.

Implicit Types s cur text tok : string.

Lemma py_lstrip_blank s :
  string_forall py_isspace s = true → py_lstrip s = EmptyString.
Proof.
  induction s as [|c s IH]; simpl; [done|].
  intros [Hc Hs]%andb_prop. rewrite Hc. auto.
Qed.

Lemma py_strip_blank s :
  string_forall py_isspace s = true → py_strip s = EmptyString.
Proof. intros H. unfold py_strip. by rewrite py_lstrip_blank. Qed.

Lemma py_split_go_cur cur s : is_empty cur = false → py_split_go cur s ≠ [].
Proof.
  revert cur. induction s as [|c s IH]; intros cur Hcur; simpl.
  - by rewrite Hcur.
  - destruct (py_isspace c); [by rewrite Hcur|].
    apply IH. by destruct cur.
Qed.

Lemma py_split_go_lstrip s :
  py_split_go EmptyString (py_lstrip s) = py_split_go EmptyString s.
Proof.
  induction s as [|c s IH]; simpl; [done|].
  destruct (py_isspace c) eqn:Hc; [done|]. simpl. by rewrite Hc.
Qed.

Lemma py_split_go_rstrip cur s :
  py_split_go cur (py_rstrip s) = py_split_go cur s.
Proof.
  revert cur. induction s as [|c s IH]; intros cur; simpl; [done|].
  destruct (is_empty (py_rstrip s)) eqn:He, (py_isspace c) eqn:Hc; simpl;
    rewrite ?Hc, ?IH; try done.
  rewrite <- (IH EmptyString).
  destruct (py_rstrip s); [|done]. simpl. by destruct (is_empty cur).
Qed.

(** The tokens of the stripped text are the tokens of the text. *)
Lemma py_split_strip s : py_split (py_strip s) = py_split s.
Proof.
  unfold py_split, py_strip. by rewrite py_split_go_rstrip, py_split_go_lstrip.
Qed.

Lemma py_lstrip_first s :
  match py_lstrip s with
  | EmptyString => True
  | String c _ => py_isspace c = false
  end.
Proof.
  induction s as [|c s IH]; simpl; [done|].
  by destruct (py_isspace c) eqn:Hc.
Qed.

(** A text that is not empty once stripped has a first token, so the
    subscript in [text.split()[0]] cannot fail. *)
Lemma py_split_nonempty s : is_empty (py_strip s) = false → py_split s ≠ [].
Proof.
  intros Hne. rewrite <- py_split_strip. unfold py_strip in *.
  pose proof (py_lstrip_first s) as Hfirst.
  destruct (py_lstrip s) as [|c r]; [done|].
  simpl in *. destruct (is_empty (py_rstrip r) && py_isspace c) eqn:E.
  { rewrite Hfirst in E. by rewrite andb_false_r in E. }
  unfold py_split. simpl. rewrite Hfirst. by apply py_split_go_cur.
Qed.

Lemma int_digits_nonneg (b : bool) (d : nat) (acc : Z) s d' v :
  0 ≤ acc → int_digits b d acc s = Some (d', v) → 0 ≤ v.
Proof.
  revert b d acc. induction s as [|c s IH]; intros b d acc Hacc; simpl.
  - destruct b; [done|]. by intros [= _ <-].
  - destruct (py_isdecimal c) eqn:Hc.
    + apply IH. unfold py_isdecimal, in_range in Hc. lia.
    + destruct (ord c =? 95); [|done]. destruct b; [done|]. by apply IH.
Qed.

Lemma ord_inj (c : ascii) (n : Z) : ord c = n → c = ascii_of_N (Z.to_N n).
Proof.
  intros <-. unfold ord. by rewrite N2Z.id, ascii_N_embedding.
Qed.

(** [int] returns a negative number only for a literal with a minus sign. *)
Lemma py_int_sign s (n : Z) :
  py_int s = Some n → n < 0 → ∃ s', s = String "-"%char s'.
Proof.
  unfold py_int. intros H Hn.
  destruct s as [|c s']; [done|].
  destruct (ord c =? 43) eqn:H43.
  { destruct (int_digits true 0 0 s') as [[d v]|] eqn:Hd; [|done].
    apply int_digits_nonneg in Hd; [|lia].
    destruct (_ <? _)%nat; [done|]. injection H as <-. lia. }
  destruct (Z.eqb_spec (ord c) 45) as [H45|H45].
  { exists s'. f_equal. by apply ord_inj in H45. }
  destruct (int_digits true 0 0 (String c s')) as [[d v]|] eqn:Hd; [|done].
  apply int_digits_nonneg in Hd; [|lia].
  destruct (_ <? _)%nat; [done|]. injection H as <-. lia.
Qed.

(** The reader never raises: whatever the file system answers, it returns,
    and what it returns is [int] of the first token when there is a readable
    text with a token, and [None] otherwise. *)
Lemma parse_state_file_eq (fs : filesystem) (path : Path) :
  parse_state_file fs path = Return (checkpoint_value fs path).
Proof.
  unfold parse_state_file, checkpoint_value. destruct (fs_exists fs path); [|done]. simpl.
  unfold read_text. destruct (fs_read_text fs path) as [text| |]; try done.
  simpl. destruct (is_empty (py_strip text)) eqn:He.
  - rewrite <- py_split_strip. by destruct (py_strip text).
  - pose proof (py_split_nonempty text He) as Hne.
    rewrite py_split_strip. destruct (py_split text) as [|tok rest]; [done|].
    simpl. unfold int_of_str. by destruct (py_int tok).
Qed.



Example parse_state_file_examples :
  parse_state_file (fs_of_files []) "state.txt" = Return None
  ∧ parse_state_file (fs_of_files [("state.txt", "")]) "state.txt" = Return None
  ∧ parse_state_file (fs_of_files [("state.txt", "  " ++ LF)]) "state.txt"
    = Return None
  ∧ parse_state_file (fs_of_files [("state.txt", "12a 7")]) "state.txt" = Return None
  ∧ parse_state_file (fs_of_files [("state.txt", " 452 x" ++ LF)]) "state.txt"
    = Return (Some 452).
Proof. repeat split; reflexivity. Qed.

End Checkpoint.

(** ** The progress aggregator *)

Section Aggregator.

Context (fs : filesystem) (jobset : string) (rank stride : Z).
Context (notebook_dir var_dir : Path) (log_max_lines : Z).
Context (total_cases : Z) (graph_sanitized : string).

Abbreviation body :=
  (analyze_offset fs jobset rank stride notebook_dir var_dir log_max_lines
                  total_cases graph_sanitized).
Abbreviation described :=
  (offset_state fs rank stride notebook_dir var_dir log_max_lines
                graph_sanitized jobset total_cases).

(** One round of the loop appends the closed description of the offset. *)
Lemma analyze_offset_eq (offset : Z) (p : JobProgress) :
  1 ≤ stride →
  body offset p = Return (JobProgress.append_worker p (described offset)).
Proof.
  intros Hs. unfold analyze_offset.
  rewrite parse_state_file_eq. simpl.
  rewrite cases_for_offset_returns by done. simpl.
  rewrite cases_done_for_offset_eq by lia. done.
Qed.

(** The loop over a list of offsets: nothing but [workers] changes, and it
    grows by one closed description per offset, in order. *)
Lemma analyze_offsets_eq (l : list Z) (p : JobProgress) :
  l = [] ∨ 1 ≤ stride →
  py_for l body p
  = Return (JobProgress.mk (JobProgress.jobset p) (JobProgress.graph p)
              (JobProgress.rank p) (JobProgress.n_vertices p)
              (JobProgress.dim p) (JobProgress.kdim p)
              (JobProgress.total_cases p) (JobProgress.stride p)
              (JobProgress.workers p ++ (described <$> l))%list).
Proof.
  revert p. induction l as [|o l IH]; intros p Hl.
  - simpl. rewrite app_nil_r. by destruct p.
  - destruct Hl as [|Hs]; [done|]. simpl py_for.
    rewrite analyze_offset_eq by done. simpl.
    rewrite IH by auto. simpl. by rewrite <- app_assoc.
Qed.

End Aggregator.

(** [analyze_job] raises exactly when [dim] or [kdim] is negative, and
    otherwise returns the record with one closed description per offset of
    [range(stride)]. *)
Lemma analyze_job_eq (fs : filesystem) (jobset graph : string)
    (rank n_vertices stride : Z) (notebook_dir var_dir : Path) (log_max_lines : Z) :
  analyze_job fs jobset graph rank n_vertices stride notebook_dir var_dir
              log_max_lines
  = if (n_vertices - 1 <? 0) || (n_vertices - 1 - rank <? 0) then Raise ValueError
    else
      let total_cases :=
        binomial (Z.to_nat (n_vertices - 1)) (Z.to_nat (n_vertices - 1 - rank)) in
      Return (JobProgress.mk jobset graph rank n_vertices (n_vertices - 1)
                (n_vertices - 1 - rank) total_cases stride
                (offset_state fs rank stride notebook_dir var_dir log_max_lines
                   (sanitize_for_filename graph) jobset total_cases
                 <$> py_range stride)).
Proof.
  unfold analyze_job, math_comb.
  destruct (n_vertices - 1 <? 0); [done|].
  destruct (n_vertices - 1 - rank <? 0); [done|]. simpl.
  rewrite analyze_offsets_eq; [done|].
  unfold py_range. destruct (Z.le_gt_cases stride 0).
  - left. by apply seqZ_nil.
  - right. lia.
Qed.

(** C10: a call of [analyze_job] with [rank > n_vertices - 1], that is with
    [kdim < 0], raises the [ValueError] of [math.comb] and returns no
    [JobProgress]. *)
Theorem analyze_job_raises_on_negative_kdim (fs : filesystem)
    (jobset graph : string) (rank n_vertices stride : Z)
    (notebook_dir var_dir : Path) (log_max_lines : Z) :
  n_vertices - 1 < rank →
  analyze_job fs jobset graph rank n_vertices stride notebook_dir var_dir
              log_max_lines
  = Raise ValueError.
Proof.
  intros Hrank. rewrite analyze_job_eq.
  destruct (Z.ltb_spec (n_vertices - 1) 0); [done|].
  destruct (Z.ltb_spec (n_vertices - 1 - rank) 0); [done|lia].
Qed.

Lemma classify_status_rules (cases_done cases_total : Z) (last_gidx : option Z) :
  (cases_total ≤ cases_done ∧ 0 < cases_total →
   classify_status cases_done cases_total last_gidx = "completed")
  ∧ (¬ (cases_total ≤ cases_done ∧ 0 < cases_total) →
     cases_done = 0 ∧ last_gidx = None →
     classify_status cases_done cases_total last_gidx = "not_started")
  ∧ (¬ (cases_total ≤ cases_done ∧ 0 < cases_total) →
     ¬ (cases_done = 0 ∧ last_gidx = None) →
     classify_status cases_done cases_total last_gidx = "running").
Proof.
  unfold classify_status.
  destruct (Z.leb_spec cases_total cases_done), (Z.ltb_spec 0 cases_total),
    (Z.eqb_spec cases_done 0), last_gidx as [g|]; simpl;
    (split; [|split]); intros; try done; try lia; intuition (done || lia).
Qed.


(** C1, amended: when [dim >= 0], [kdim >= 0] and [stride >= 1], and every
    checkpoint that is present holds a value below [total_cases],
    [analyze_job] returns a [JobProgress] whose [cases_done], the sum of the
    done counts of all offsets, is at most [total_cases]. *)
Theorem analyze_job_cases_done_le_total (fs : filesystem) (jobset graph : string)
    (rank n_vertices stride : Z) (notebook_dir var_dir : Path)
    (log_max_lines : Z) :
  0 ≤ n_vertices - 1 → 0 ≤ n_vertices - 1 - rank → 1 ≤ stride →
  (∀ total offset g,
     math_comb (n_vertices - 1) (n_vertices - 1 - rank) = Return total →
     offset ∈ py_range stride →
     parse_state_file fs
       (state_file_path notebook_dir (sanitize_for_filename graph) rank stride
          offset) = Return (Some g) →
     g < total) →
  ∃ p, analyze_job fs jobset graph rank n_vertices stride notebook_dir var_dir
                   log_max_lines = Return p
       ∧ JobProgress.cases_done p ≤ JobProgress.total_cases p.
Proof.
  intros Hdim Hkdim Hs Hvalid. rewrite analyze_job_eq.
  unfold math_comb in Hvalid.
  destruct (Z.ltb_spec (n_vertices - 1) 0); [lia|].
  destruct (Z.ltb_spec (n_vertices - 1 - rank) 0); [lia|]. simpl.
  eexists; split; [done|]. unfold JobProgress.cases_done. simpl.
  set (total := binomial _ _) in *.
  rewrite <- list_fmap_compose.
  rewrite <- (sum_spec_total stride total) at 2
    by (done || apply binomial_nonneg).
  apply py_sum_le. intros o Ho. simpl.
  apply cases_done_le_cases_total; [done|].
  intros g Hg. apply (Hvalid total o g); [done|done|].
  by rewrite parse_state_file_eq, Hg.
Qed.

(** ** The attribution engine *)

Section Attribution.

Implicit Types (line : string) (lines : list string) (st : scan).
Implicit Types (pw : gmap Z (gset Z)) (wid gidx g : Z).

Lemma attributed_record_gidx wid gidx pw : attributed wid gidx (record_gidx wid gidx pw).
Proof.
  unfold attributed, record_gidx. eexists. rewrite lookup_insert_eq.
  split; [done|]. set_solver.
Qed.

(** Recording an index changes no attribution made before. *)
Lemma attributed_record_gidx_mono wid gidx wid' g pw :
  attributed wid' g pw → attributed wid' g (record_gidx wid gidx pw).
Proof.
  intros (s & Hs & Hg). unfold attributed, record_gidx.
  destruct (decide (wid = wid')) as [->|Hne].
  - eexists. rewrite lookup_insert_eq. split; [done|]. rewrite Hs. set_solver.
  - exists s. by rewrite lookup_insert_ne.
Qed.

(** And it adds nothing but that index under that identity. *)
Lemma attributed_record_gidx_inv wid gidx wid' g pw :
  attributed wid' g (record_gidx wid gidx pw) →
  (wid' = wid ∧ g = gidx) ∨ attributed wid' g pw.
Proof.
  unfold attributed, record_gidx. intros (s & Hs & Hg).
  destruct (decide (wid = wid')) as [->|Hne].
  - rewrite lookup_insert_eq in Hs. injection Hs as <-.
    apply elem_of_union in Hg as [Hg%elem_of_singleton|Hg]; [by left|].
    right. destruct (pw !! wid') as [s|]; [by exists s|set_solver].
  - rewrite lookup_insert_ne in Hs by done. right. by exists s.
Qed.

Lemma scan_line_start line st (id : option Z) :
  worker_start line = Some id →
  scan_line line st = mk_scan id (per_worker st) (all_gidx st).
Proof.
  unfold worker_start, scan_line.
  destruct (re_match _WORKER_START_RE line); [|done]. by intros [= <-].
Qed.

Lemma scan_line_completion line st gidx :
  worker_start line = None → completion_event line = Some gidx →
  scan_line line st
  = mk_scan (current_wid st)
      (record_gidx (default 0 (current_wid st)) gidx (per_worker st))
      ({[gidx]} ∪ all_gidx st).
Proof.
  unfold worker_start, completion_event, scan_line.
  destruct (re_match _WORKER_START_RE line); [done|]. intros _.
  destruct (re_search _DONE_RE line) as [m|]; [|done]. simpl.
  intros ->. by destruct (current_wid st).
Qed.

Lemma scan_line_end line st :
  worker_start line = None → re_search _DONE_RE line = None →
  worker_end line = true →
  scan_line line st = mk_scan None (per_worker st) (all_gidx st).
Proof.
  unfold worker_start, worker_end, scan_line.
  destruct (re_match _WORKER_START_RE line); [done|]. intros _ ->.
  intros [m ->]%bool_decide_eq_true. done.
Qed.

(** A line leaves the two accumulators alone or records one index in both. *)
Lemma scan_line_accumulators line st :
  (per_worker (scan_line line st) = per_worker st
   ∧ all_gidx (scan_line line st) = all_gidx st)
  ∨ (∃ gidx, worker_start line = None ∧ completion_event line = Some gidx
       ∧ per_worker (scan_line line st)
         = record_gidx (default 0 (current_wid st)) gidx (per_worker st)
       ∧ all_gidx (scan_line line st) = {[gidx]} ∪ all_gidx st).
Proof.
  destruct (worker_start line) as [id|] eqn:Hstart.
  { left. by rewrite (scan_line_start _ _ id). }
  destruct (completion_event line) as [gidx|] eqn:Hdone.
  { right. exists gidx. by rewrite (scan_line_completion _ _ gidx). }
  left. unfold worker_start, completion_event, scan_line in *.
  destruct (re_match _WORKER_START_RE line); [done|].
  destruct (re_search _DONE_RE line) as [m|]; simpl in *.
  - by rewrite Hdone.
  - by destruct (re_match _WORKER_DONE_RE line).
Qed.

Lemma scan_lines_cons line lines st :
  scan_lines (line :: lines) st = scan_lines lines (scan_line line st).
Proof. done. Qed.

(** [all_gidx] stays the union of the sets of [per_worker]. *)
Lemma scan_line_union_of line st :
  union_of (per_worker st) (all_gidx st) →
  union_of (per_worker (scan_line line st)) (all_gidx (scan_line line st)).
Proof.
  intros Hinv.
  destruct (scan_line_accumulators line st)
    as [[-> ->]|(gidx & _ & _ & -> & ->)]; [done|].
  intros g. rewrite elem_of_union, elem_of_singleton, (Hinv g). split.
  - intros [->|[wid Hg]].
    + eexists. apply attributed_record_gidx.
    + exists wid. by apply attributed_record_gidx_mono.
  - intros [wid [[_ ->]|Hg]%attributed_record_gidx_inv]; [by left|].
    right. by exists wid.
Qed.

Lemma scan_line_recorded_mono line st g :
  recorded g (per_worker st) → recorded g (per_worker (scan_line line st)).
Proof.
  intros [wid Hg].
  destruct (scan_line_accumulators line st)
    as [[-> _]|(gidx & _ & _ & -> & _)]; [by exists wid|].
  exists wid. by apply attributed_record_gidx_mono.
Qed.

Lemma scan_lines_union_of lines st :
  union_of (per_worker st) (all_gidx st) →
  union_of (per_worker (scan_lines lines st)) (all_gidx (scan_lines lines st)).
Proof.
  revert st. induction lines as [|line lines IH]; intros st Hinv; [done|].
  rewrite scan_lines_cons. by apply IH, scan_line_union_of.
Qed.

Lemma scan_lines_recorded_mono lines st g :
  recorded g (per_worker st) → recorded g (per_worker (scan_lines lines st)).
Proof.
  revert st. induction lines as [|line lines IH]; intros st Hg; [done|].
  rewrite scan_lines_cons. by apply IH, scan_line_recorded_mono.
Qed.

(** A completion event on a line that is not a worker-start line is
    recorded by the scan of any log that holds the line. *)
Lemma scan_lines_records lines st line g :
  line ∈ lines → worker_start line = None → completion_event line = Some g →
  recorded g (per_worker (scan_lines lines st)).
Proof.
  intros Hin Hstart Hdone. revert st.
  induction lines as [|line' lines IH]; intros st; [by apply elem_of_nil in Hin|].
  rewrite scan_lines_cons.
  apply elem_of_cons in Hin as [<-|Hin]; [|by apply IH].
  apply scan_lines_recorded_mono.
  rewrite (scan_line_completion line st g) by done. simpl.
  eexists. apply attributed_record_gidx.
Qed.

(** *** The pass over all logs *)

Section Breakdown.

Context (fs : filesystem) (var_dir : Path) (log_max_lines : Z) (jobset : string).

Abbreviation step := (breakdown_step fs var_dir log_max_lines jobset).

(** The loop over the workers hands the store on as it got it. *)
Lemma breakdown_eq (ws : list WorkerState) (acc : gmap Z (gset Z) * gset Z)
    (p : JobProgress) :
  py_for ws (breakdown_worker fs var_dir log_max_lines jobset) acc p
  = (foldl step acc ws, p).
Proof.
  revert acc. induction ws as [|w ws IH]; intros acc; [done|].
  simpl. unfold mbind, state_bind, breakdown_worker, breakdown_step at 2.
  destruct (read_log_tail _ _ _); simpl; apply IH.
Qed.

Lemma step_union_of acc (w : WorkerState) :
  union_of acc.1 acc.2 → union_of (step acc w).1 (step acc w).2.
Proof.
  intros Hinv. unfold breakdown_step.
  destruct (read_log_tail _ _ _) as [lines|]; [|done].
  by apply scan_lines_union_of.
Qed.

Lemma step_recorded_mono acc (w : WorkerState) g :
  recorded g acc.1 → recorded g (step acc w).1.
Proof.
  intros Hg. unfold breakdown_step.
  destruct (read_log_tail _ _ _) as [lines|]; [|done].
  by apply scan_lines_recorded_mono.
Qed.

Lemma steps_union_of (ws : list WorkerState) acc :
  union_of acc.1 acc.2 → union_of (foldl step acc ws).1 (foldl step acc ws).2.
Proof.
  revert acc. induction ws as [|w ws IH]; intros acc Hinv; [done|].
  simpl. by apply IH, step_union_of.
Qed.

Lemma steps_recorded_mono (ws : list WorkerState) acc g :
  recorded g acc.1 → recorded g (foldl step acc ws).1.
Proof.
  revert acc. induction ws as [|w ws IH]; intros acc Hg; [done|].
  simpl. by apply IH, step_recorded_mono.
Qed.

Lemma steps_records (ws : list WorkerState) acc (w : WorkerState) lines line g :
  w ∈ ws →
  read_log_tail fs (log_file_path var_dir jobset (WorkerState.offset w))
                log_max_lines = Some lines →
  line ∈ lines → worker_start line = None → completion_event line = Some g →
  recorded g (foldl step acc ws).1.
Proof.
  intros Hw Hlog Hline Hstart Hdone. revert acc.
  induction ws as [|w' ws IH]; intros acc; [by apply elem_of_nil in Hw|].
  simpl. apply elem_of_cons in Hw as [<-|Hw]; [|by apply IH].
  apply steps_recorded_mono. unfold breakdown_step. rewrite Hlog.
  by apply (scan_lines_records lines _ line g).
Qed.

End Breakdown.

Lemma worker_case_breakdown_eq (fs : filesystem) (var_dir : Path)
    (log_max_lines : Z) (p : JobProgress) :
  worker_case_breakdown_from_logs fs var_dir log_max_lines p
  = (foldl (breakdown_step fs var_dir log_max_lines (JobProgress.jobset p))
           (∅, ∅) (JobProgress.workers p), p).
Proof.
  unfold worker_case_breakdown_from_logs, mbind, state_bind, getattr.
  apply breakdown_eq.
Qed.

Lemma union_of_empty : union_of ∅ ∅.
Proof.
  intros g. split; [set_solver|]. intros (wid & s & Hs & _).
  by rewrite lookup_empty in Hs.
Qed.



(** The attribution example on a concrete log. *)
Example example_log_attribution :
  scan_log example_log (∅, ∅) = ({[3 := {[0; 4]}; 0 := {[8]}]}, {[0; 4; 8]}).
Proof. vm_compute. reflexivity. Qed.

(** C8, amended: after [worker_case_breakdown_from_logs], [all_gidx] is the
    union of the per-worker sets, and the global index of every completion
    event in the scanned tail of a worker's log is recorded under some
    worker identity, provided the line of the event is not also a
    worker-start line. *)
Theorem worker_case_breakdown_union (fs : filesystem) (var_dir : Path)
    (log_max_lines : Z) (p : JobProgress) :
  let result := (worker_case_breakdown_from_logs fs var_dir log_max_lines p).1 in
  (∀ gidx, gidx ∈ result.2 ↔ ∃ wid s, result.1 !! wid = Some s ∧ gidx ∈ s)
  ∧ (∀ (w : WorkerState) lines line gidx,
       w ∈ JobProgress.workers p →
       read_log_tail fs
         (log_file_path var_dir (JobProgress.jobset p) (WorkerState.offset w))
         log_max_lines = Some lines →
       line ∈ lines →
       worker_start line = None → completion_event line = Some gidx →
       ∃ wid s, result.1 !! wid = Some s ∧ gidx ∈ s).
Proof.
  rewrite worker_case_breakdown_eq. simpl. split.
  - apply (steps_union_of fs var_dir log_max_lines _ _ (∅, ∅)), union_of_empty.
  - intros w lines line gidx Hw Hlog Hline Hstart Hdone.
    by apply (steps_records fs var_dir log_max_lines _ _ (∅, ∅) w lines line gidx).
Qed.

(** C9: [worker_case_breakdown_from_logs] hands back the store it was given:
    the [JobProgress], with every field of it and of each of its
    [WorkerState]s, is the same after the call, and so are the figures
    derived from the checkpoints. *)
Theorem worker_case_breakdown_frame (fs : filesystem) (var_dir : Path)
    (log_max_lines : Z) (p : JobProgress) :
  let p' := (worker_case_breakdown_from_logs fs var_dir log_max_lines p).2 in
  p' = p
  ∧ JobProgress.workers p' = JobProgress.workers p
  ∧ JobProgress.total_cases p' = JobProgress.total_cases p
  ∧ JobProgress.cases_done p' = JobProgress.cases_done p
  ∧ JobProgress.cases_remaining p' = JobProgress.cases_remaining p.
Proof. by rewrite worker_case_breakdown_eq. Qed.

End Attribution.

(* ================================================================== *)
(** * Further properties of the code *)

(** ** The sizer and the done count *)

Section SizerMore.

Implicit Types offset stride total g : Z.

Lemma ceil_div_unique a b q : 0 < b → (q - 1) * b < a ≤ q * b → ceil_div a b = q.
Proof.
  intros Hb Hq. pose proof (ceil_div_bounds a b Hb). nia.
Qed.

Lemma ceil_div_succ a s :
  0 ≤ a → 1 ≤ s →
  ceil_div (a + 1) s = ceil_div a s + (if a mod s =? 0 then 1 else 0).
Proof.
  intros Ha Hs.
  pose proof (Z.div_mod a s ltac:(lia)) as Hdm.
  pose proof (Z.mod_pos_bound a s ltac:(lia)) as Hr.
  set (k := a / s) in *. set (r := a mod s) in *.
  destruct (Z.eqb_spec r 0) as [Hr0|Hr0].
  - rewrite (ceil_div_unique a s k) by nia.
    apply ceil_div_unique; nia.
  - rewrite (ceil_div_unique a s (k + 1)) by nia.
    apply ceil_div_unique; nia.
Qed.

(** Raising [total] by one adds a case exactly when the new index belongs
    to the offset. *)
Lemma cases_for_offset_spec_succ offset stride n :
  0 ≤ offset → 1 ≤ stride → 0 ≤ n →
  cases_for_offset_spec offset stride (n + 1)
  = cases_for_offset_spec offset stride n
    + (if decide (offset ≤ n ∧ (n - offset) mod stride = 0) then 1 else 0).
Proof.
  intros Ho Hs Hn. unfold cases_for_offset_spec.
  destruct (Z.ltb_spec offset (n + 1)), (Z.ltb_spec offset n); try lia.
  - replace (n + 1 - offset) with (n - offset + 1) by lia.
    rewrite ceil_div_succ by lia.
    destruct (Z.eqb_spec ((n - offset) mod stride) 0); case_decide; lia.
  - assert (offset = n) as -> by lia.
    replace (n + 1 - n) with 1 by lia.
    rewrite (ceil_div_unique 1 stride 1) by lia.
    rewrite decide_True; [done|]. split; [lia|].
    replace (n - n) with 0 by lia. by rewrite Z.mod_0_l by lia.
  - rewrite decide_False; [done|]. intros [? _]. lia.
Qed.

Lemma cases_for_offset_spec_counts offset stride (n : nat) :
  0 ≤ offset → 1 ≤ stride →
  cases_for_offset_spec offset stride (Z.of_nat n)
  = Z.of_nat (length (filter (fun i => offset ≤ i ∧ (i - offset) mod stride = 0)
                             (seqZ 0 (Z.of_nat n)))).
Proof.
  intros Ho Hs. induction n as [|n IH].
  - unfold cases_for_offset_spec. rewrite seqZ_nil by lia.
    by destruct (Z.ltb_spec offset (Z.of_nat 0)); [lia|].
  - replace (Z.of_nat (S n)) with (Z.of_nat n + 1) by lia.
    rewrite cases_for_offset_spec_succ by lia. rewrite IH.
    rewrite seqZ_app by lia. rewrite Z.add_0_l, filter_app, length_app.
    rewrite (seqZ_cons _ 1) by lia. rewrite (seqZ_nil _ (Z.pred 1)) by lia.
    rewrite filter_cons, filter_nil.
    case_decide; simpl; lia.
Qed.

(** X1: for [offset >= 0], [stride >= 1] and [total >= 0],
    [cases_for_offset] returns the number of global indices [i] with
    [0 <= i < total] that the offset owns, that is with [i >= offset] and
    [i - offset] a multiple of [stride]. *)
Theorem cases_for_offset_counts_owned offset stride total :
  0 ≤ offset → 1 ≤ stride → 0 ≤ total →
  cases_for_offset offset stride total
  = Return (Z.of_nat
      (length (filter (fun i => offset ≤ i ∧ (i - offset) mod stride = 0)
                      (seqZ 0 total)))).
Proof.
  intros Ho Hs Ht. rewrite cases_for_offset_returns by done. f_equal.
  rewrite <- (Z2Nat.id total) by done. by apply cases_for_offset_spec_counts.
Qed.

Lemma cases_for_offset_counts_owned_witness :
  0 ≤ 1 ∧ 1 ≤ 4 ∧ 0 ≤ 10
  ∧ cases_for_offset 1 4 10
    = Return (Z.of_nat
        (length (filter (fun i => 1 ≤ i ∧ (i - 1) mod 4 = 0) (seqZ 0 10))))
  ∧ filter (fun i => 1 ≤ i ∧ (i - 1) mod 4 = 0) (seqZ 0 10) = [1; 5; 9].
Proof.
  split; [lia|]. split; [lia|]. split; [lia|]. split; [|reflexivity].
  apply (cases_for_offset_counts_owned 1 4 10); lia.
Defined.

Lemma cases_for_offset_spec_antitone o1 o2 stride total :
  1 ≤ stride → o1 ≤ o2 →
  cases_for_offset_spec o2 stride total ≤ cases_for_offset_spec o1 stride total.
Proof.
  intros Hs Ho. unfold cases_for_offset_spec.
  destruct (Z.ltb_spec o1 total), (Z.ltb_spec o2 total); try lia.
  - pose proof (ceil_div_bounds (total - o1) stride ltac:(lia)).
    pose proof (ceil_div_bounds (total - o2) stride ltac:(lia)). nia.
  - pose proof (ceil_div_pos (total - o1) stride). lia.
Qed.

Lemma cases_for_offset_spec_balanced o1 o2 stride total :
  1 ≤ stride → o1 ≤ o2 → o2 < o1 + stride →
  cases_for_offset_spec o1 stride total ≤ cases_for_offset_spec o2 stride total + 1.
Proof.
  intros Hs Ho Ho'. unfold cases_for_offset_spec.
  destruct (Z.ltb_spec o1 total), (Z.ltb_spec o2 total); try lia.
  - pose proof (ceil_div_bounds (total - o1) stride ltac:(lia)).
    pose proof (ceil_div_bounds (total - o2) stride ltac:(lia)). nia.
  - pose proof (ceil_div_bounds (total - o1) stride ltac:(lia)). nia.
Qed.

(** X2: the partition is balanced.  For [stride >= 1] and two offsets
    [o1 <= o2] less than [stride] apart (so any two offsets of
    [range(stride)]), both calls return, the later offset owns no more cases
    than the earlier one, and at most one case fewer. *)
Theorem cases_for_offset_balanced o1 o2 stride total :
  1 ≤ stride → o1 ≤ o2 → o2 < o1 + stride →
  ∃ c1 c2, cases_for_offset o1 stride total = Return c1
         ∧ cases_for_offset o2 stride total = Return c2
         ∧ c2 ≤ c1 ≤ c2 + 1.
Proof.
  intros Hs Ho Ho'. do 2 eexists. rewrite !cases_for_offset_returns by done.
  split; [done|]. split; [done|].
  split; [by apply cases_for_offset_spec_antitone
         |by apply cases_for_offset_spec_balanced].
Qed.

Lemma cases_for_offset_balanced_witness :
  ∃ c1 c2, cases_for_offset 0 4 455 = Return c1
         ∧ cases_for_offset 3 4 455 = Return c2
         ∧ c2 ≤ c1 ≤ c2 + 1.
Proof. apply (cases_for_offset_balanced 0 3 4 455); lia. Defined.

Lemma cases_done_value_counts g offset stride :
  1 ≤ stride → offset ≤ g → (g - offset) mod stride = 0 →
  cases_done_value (Some g) offset stride
  = cases_for_offset_spec offset stride (g + 1).
Proof.
  intros Hs Hg Hmod. unfold cases_done_value, cases_for_offset_spec.
  destruct (Z.ltb_spec g offset); [lia|]. rewrite Hmod. simpl.
  destruct (Z.ltb_spec offset (g + 1)); [|lia].
  symmetry. apply ceil_div_unique; [lia|].
  pose proof (Z.div_mod (g - offset) stride ltac:(lia)). nia.
Qed.

(** X3: for [stride >= 1] and a checkpoint [g >= offset] in the residue
    class of the offset, the done count is the number of cases the offset
    owns among the indices up to and including the checkpoint:
    [cases_done_for_offset(g, offset, stride)] and
    [cases_for_offset(offset, stride, g + 1)] return the same number. *)
Theorem cases_done_is_cases_up_to_checkpoint g offset stride :
  1 ≤ stride → offset ≤ g → (g - offset) mod stride = 0 →
  cases_done_for_offset (Some g) offset stride
  = cases_for_offset offset stride (g + 1)
  ∧ ∃ n, cases_for_offset offset stride (g + 1) = Return n ∧ 1 ≤ n.
Proof.
  intros Hs Hg Hmod. rewrite cases_done_for_offset_eq by lia.
  rewrite cases_for_offset_returns by done.
  rewrite cases_done_value_counts by done. split; [done|].
  eexists; split; [done|]. unfold cases_for_offset_spec.
  destruct (Z.ltb_spec offset (g + 1)); [|lia].
  pose proof (ceil_div_pos (g + 1 - offset) stride). lia.
Qed.

Lemma cases_done_is_cases_up_to_checkpoint_witness :
  cases_done_for_offset (Some 6) 2 4 = cases_for_offset 2 4 (6 + 1)
  ∧ ∃ n, cases_for_offset 2 4 (6 + 1) = Return n ∧ 1 ≤ n.
Proof.
  apply (cases_done_is_cases_up_to_checkpoint 6 2 4); [lia|lia|reflexivity].
Defined.

Lemma cases_done_value_nonneg (last_gidx : option Z) offset stride :
  1 ≤ stride → 0 ≤ cases_done_value last_gidx offset stride.
Proof.
  intros Hs. unfold cases_done_value. destruct last_gidx as [g|]; [|done].
  destruct (Z.ltb_spec g offset); [done|].
  destruct (_ =? 0); simpl; [|done].
  pose proof (Z.div_pos (g - offset) stride). lia.
Qed.

Lemma cases_for_offset_spec_nonneg offset stride total :
  1 ≤ stride → 0 ≤ cases_for_offset_spec offset stride total.
Proof.
  intros Hs. unfold cases_for_offset_spec.
  destruct (Z.ltb_spec offset total); [|done].
  pose proof (ceil_div_pos (total - offset) stride). lia.
Qed.

Lemma binomial_gt (n k : nat) : (n < k)%nat → binomial n k = 0.
Proof.
  revert k. induction n as [|n IH]; intros [|k] Hk; simpl; try lia.
  rewrite !IH by lia. done.
Qed.

Lemma binomial_diag (n : nat) : binomial n n = 1.
Proof.
  induction n as [|n IH]; simpl; [done|]. rewrite IH, binomial_gt by lia. done.
Qed.

(** The Pascal recursion computes [n! / (k! (n - k)!)]. *)
Lemma binomial_fact (n k : nat) :
  (k ≤ n)%nat →
  binomial n k * Z.of_nat (fact k) * Z.of_nat (fact (n - k)) = Z.of_nat (fact n).
Proof.
  revert k. induction n as [|n IH]; intros k Hk.
  - assert (k = 0)%nat as -> by lia. done.
  - destruct k as [|k].
    { simpl binomial. rewrite Nat.sub_0_r. simpl fact at 1. lia. }
    destruct (decide (k = n)) as [->|Hne].
    { rewrite binomial_diag, Nat.sub_diag. simpl fact at 2. lia. }
    simpl binomial.
    pose proof (IH k ltac:(lia)) as H1. pose proof (IH (S k) ltac:(lia)) as H2.
    replace (S n - S k)%nat with (n - k)%nat by lia.
    replace (n - k)%nat with (S (n - S k)) in * by lia.
    change (fact (S n)) with (S n * fact n)%nat.
    change (fact (S k)) with (S k * fact k)%nat in *.
    change (fact (S (n - S k))) with (S (n - S k) * fact (n - S k))%nat in *.
    rewrite !Nat2Z.inj_mul in *.
    set (a := binomial n k) in *. set (b := binomial n (S k)) in *.
    set (fk := Z.of_nat (fact k)) in *. set (fr := Z.of_nat (fact (n - S k))) in *.
    set (fn := Z.of_nat (fact n)) in *.
    assert (Z.of_nat (S n) = Z.of_nat (S k) + Z.of_nat (S (n - S k))) as -> by lia.
    nia.
Qed.

Lemma binomial_pos (n k : nat) : (k ≤ n)%nat → 0 < binomial n k.
Proof.
  intros Hk. pose proof (binomial_fact n k Hk) as H.
  pose proof (binomial_nonneg n k).
  pose proof (lt_O_fact n). pose proof (lt_O_fact k).
  pose proof (lt_O_fact (n - k)). nia.
Qed.

End SizerMore.

(** ** The aggregate built by [analyze_job] *)

Section AggregateMore.

Context (fs : filesystem) (jobset graph : string) (rank n_vertices stride : Z).
Context (notebook_dir var_dir : Path) (log_max_lines : Z).

Abbreviation total := (binomial (Z.to_nat (n_vertices - 1))
                                (Z.to_nat (n_vertices - 1 - rank))).
Abbreviation described_offset :=
  (offset_state fs rank stride notebook_dir var_dir log_max_lines
                (sanitize_for_filename graph) jobset total).

(** What a returned [JobProgress] is. *)
Lemma analyze_job_returned (p : JobProgress) :
  analyze_job fs jobset graph rank n_vertices stride notebook_dir var_dir
              log_max_lines = Return p →
  0 ≤ n_vertices - 1 ∧ 0 ≤ n_vertices - 1 - rank
  ∧ p = JobProgress.mk jobset graph rank n_vertices (n_vertices - 1)
          (n_vertices - 1 - rank) total stride
          (described_offset <$> py_range stride).
Proof.
  rewrite analyze_job_eq.
  destruct (Z.ltb_spec (n_vertices - 1) 0); [done|].
  destruct (Z.ltb_spec (n_vertices - 1 - rank) 0); [done|].
  simpl. by intros [= <-].
Qed.

Lemma py_sum_nonneg (xs : list Z) : Forall (fun x => 0 ≤ x) xs → 0 ≤ py_sum xs.
Proof.
  induction 1 as [|x xs Hx _ IH]; [done|]. rewrite py_sum_cons. lia.
Qed.



(** X6: a returned [JobProgress] has one [WorkerState] per offset of
    [range(stride)].  With [stride >= 1] their [cases_total] add up to
    [total_cases]; with [stride <= 0] there is no worker, nothing is done
    and everything remains. *)
Theorem analyze_job_partition (p : JobProgress) :
  analyze_job fs jobset graph rank n_vertices stride notebook_dir var_dir
              log_max_lines = Return p →
  length (JobProgress.workers p) = Z.to_nat stride
  ∧ (1 ≤ stride →
     py_sum (WorkerState.cases_total <$> JobProgress.workers p)
     = JobProgress.total_cases p)
  ∧ (stride ≤ 0 →
     JobProgress.workers p = []
     ∧ JobProgress.cases_done p = 0
     ∧ JobProgress.cases_remaining p = JobProgress.total_cases p).
Proof.
  intros (_ & _ & ->)%analyze_job_returned. simpl. split; [|split].
  - unfold py_range. by rewrite length_fmap, length_seqZ.
  - intros Hs. rewrite <- list_fmap_compose.
    apply sum_spec_total; [done|apply binomial_nonneg].
  - intros Hs. unfold py_range. rewrite seqZ_nil by done.
    split; [done|]. split; [done|].
    unfold JobProgress.cases_remaining, JobProgress.cases_done. simpl.
    change (py_sum []) with 0. pose proof (binomial_nonneg
      (Z.to_nat (n_vertices - 1)) (Z.to_nat (n_vertices - 1 - rank))). lia.
Qed.

(** X7: in a returned [JobProgress] no count is negative: each offset has
    [cases_done >= 0] and [cases_total >= 0], the job has [cases_done >= 0],
    and [0 <= cases_remaining <= total_cases]. *)
Theorem analyze_job_counts_nonneg (p : JobProgress) :
  analyze_job fs jobset graph rank n_vertices stride notebook_dir var_dir
              log_max_lines = Return p →
  Forall (fun w => 0 ≤ WorkerState.cases_done w ∧ 0 ≤ WorkerState.cases_total w)
         (JobProgress.workers p)
  ∧ 0 ≤ JobProgress.cases_done p
  ∧ 0 ≤ JobProgress.cases_remaining p ≤ JobProgress.total_cases p.
Proof.
  intros (_ & _ & ->)%analyze_job_returned.
  assert (Forall (fun w : WorkerState =>
            0 ≤ WorkerState.cases_done w ∧ 0 ≤ WorkerState.cases_total w)
          (described_offset <$> py_range stride)) as Hall.
  { apply Forall_fmap, Forall_forall. intros o Ho%elem_of_seqZ. simpl.
    split; [apply cases_done_value_nonneg|apply cases_for_offset_spec_nonneg];
      lia. }
  split; [done|].
  assert (0 ≤ py_sum (WorkerState.cases_done <$> (described_offset <$> py_range stride)))
    as Hdone.
  { apply py_sum_nonneg, Forall_fmap. eapply Forall_impl; [exact Hall|].
    by intros w [? _]. }
  unfold JobProgress.cases_remaining, JobProgress.cases_done. simpl.
  pose proof (binomial_nonneg
    (Z.to_nat (n_vertices - 1)) (Z.to_nat (n_vertices - 1 - rank))). lia.
Qed.

(** X8: in a returned [JobProgress], an offset whose checkpoint [g] is one
    of its own indices ([offset <= g < total_cases], [g - offset] a multiple
    of [stride]) is [completed] exactly when [g] is the last index it owns,
    that is when [g + stride >= total_cases]; otherwise it is [running]. *)
Theorem analyze_job_completed_iff_last_index (p : JobProgress) :
  analyze_job fs jobset graph rank n_vertices stride notebook_dir var_dir
              log_max_lines = Return p →
  Forall (fun w => ∀ g,
            WorkerState.last_gidx w = Some g →
            WorkerState.offset w ≤ g → g < JobProgress.total_cases p →
            (g - WorkerState.offset w) mod stride = 0 →
            (WorkerState.status w = "completed"
             ↔ JobProgress.total_cases p ≤ g + stride)
            ∧ (WorkerState.status w = "completed"
               ∨ WorkerState.status w = "running"))
         (JobProgress.workers p).
Proof.
  intros (_ & _ & ->)%analyze_job_returned. simpl.
  apply Forall_fmap, Forall_forall. intros o Ho%elem_of_seqZ. simpl.
  intros g -> Hog Hg Hmod.
  unfold classify_status, cases_done_value, cases_for_offset_spec. simpl.
  destruct (Z.ltb_spec g o); [lia|]. rewrite Hmod. simpl.
  destruct (Z.ltb_spec o total); [|lia].
  pose proof (ceil_div_bounds (total - o) stride ltac:(lia)) as Hc.
  pose proof (ceil_div_pos (total - o) stride ltac:(lia) ltac:(lia)) as Hc'.
  pose proof (Z.div_mod (g - o) stride ltac:(lia)) as Hdm.
  rewrite andb_false_r.
  destruct (Z.leb_spec (ceil_div (total - o) stride) ((g - o) / stride + 1)),
    (Z.ltb_spec 0 (ceil_div (total - o) stride)); simpl; try lia.
  - split; [|by left]. split; [intros _; nia|done].
  - split; [|by right]. split; [done|intros; nia].
Qed.

End AggregateMore.

(** ** The bounded tail and the log event extractor *)

Section LogsMore.

Lemma py_tail_suffix {A} (n : Z) (l : list A) : py_tail n l `suffix_of` l.
Proof.
  unfold py_tail, py_slice_from. destruct (_ <? _); apply suffix_drop.
Qed.

Lemma py_tail_positive {A} (n : Z) (l : list A) :
  1 ≤ n → py_tail n l = drop (length l - Z.to_nat n) l.
Proof.
  intros Hn. unfold py_tail, py_slice_from.
  destruct (Z.ltb_spec (- n) 0); [|lia]. f_equal. lia.
Qed.

Lemma py_tail_zero {A} (l : list A) : py_tail 0 l = l.
Proof. done. Qed.

Lemma py_tail_negative {A} (n : Z) (l : list A) :
  n < 0 → py_tail n l = drop (Z.to_nat (- n)) l.
Proof.
  intros Hn. unfold py_tail, py_slice_from.
  by destruct (Z.ltb_spec (- n) 0); [lia|].
Qed.

Lemma length_omap_le {A B} (f : A → option B) (l : list A) :
  (length (omap f l) ≤ length l)%nat.
Proof.
  induction l as [|x l IH]; csimpl; [done|]. destruct (f x); csimpl; lia.
Qed.

Lemma parse_log_fold (lines : list string) (acc : list (datetime * float)) :
  foldl (fun results line =>
           match parse_log_line line with
           | Some r => (results ++ [r])%list
           | None => results
           end) acc lines
  = (acc ++ omap parse_log_line lines)%list.
Proof.
  revert acc. induction lines as [|line lines IH]; intros acc; simpl.
  - by rewrite app_nil_r.
  - rewrite IH. destruct (parse_log_line line); [|done].
    by rewrite <- app_assoc.
Qed.

(** [parse_log_times] keeps, in file order, what the lines of the tail
    parse to. *)
Lemma parse_log_times_eq (fs : filesystem) (path : Path) (max_lines : Z) :
  parse_log_times fs path max_lines
  = match read_log_tail fs path max_lines with
    | None => []
    | Some lines => omap parse_log_line lines
    end.
Proof.
  unfold parse_log_times. destruct (read_log_tail _ _ _); [|done].
  apply parse_log_fold.
Qed.

(** X9: the window of [parse_log_times] over a readable log.  With
    [max_lines >= 1] the samples are those of the last [max_lines] lines of
    the file, in file order, so there are at most [max_lines] of them; with
    [max_lines = 0] the slice [[-0:]] is the whole list, so every line of the
    file is read; with [max_lines < 0] the first [-max_lines] lines are
    skipped. *)
Theorem parse_log_times_window (fs : filesystem) (path : Path) (max_lines : Z)
    (text : string) :
  fs_exists fs path = true → fs_read_text_replace fs path = Some text →
  let lines := py_splitlines text in
  (1 ≤ max_lines →
   parse_log_times fs path max_lines
   = omap parse_log_line (drop (length lines - Z.to_nat max_lines) lines)
   ∧ (length (parse_log_times fs path max_lines) ≤ Z.to_nat max_lines)%nat)
  ∧ (max_lines = 0 →
     parse_log_times fs path max_lines = omap parse_log_line lines)
  ∧ (max_lines < 0 →
     parse_log_times fs path max_lines
     = omap parse_log_line (drop (Z.to_nat (- max_lines)) lines)).
Proof.
  intros Hex Hread lines. rewrite parse_log_times_eq. unfold read_log_tail.
  rewrite Hex, Hread. simpl. fold lines. split; [|split].
  - intros Hn. rewrite py_tail_positive by done. split; [done|].
    etrans; [apply length_omap_le|]. rewrite length_drop. lia.
  - by intros ->.
  - intros Hn. by rewrite py_tail_negative.
Qed.


Lemma first_timestamp_cons (l : string) (lines : list string) :
  first_timestamp (l :: lines)
  = match line_timestamp l with
    | Some ts => Some ts
    | None => first_timestamp lines
    end.
Proof.
  simpl. unfold line_timestamp.
  by destruct (re_search _TS_BRACKET_RE l).
Qed.

Lemma first_timestamp_some (lines : list string) (ts : datetime) :
  first_timestamp lines = Some ts →
  ∃ before line after,
    lines = (before ++ line :: after)%list
    ∧ Forall (fun l => line_timestamp l = None) before
    ∧ line_timestamp line = Some ts.
Proof.
  induction lines as [|l lines IH]; [done|].
  rewrite first_timestamp_cons.
  destruct (line_timestamp l) as [ts'|] eqn:Hl.
  - intros [= ->]. by exists [], l, lines.
  - intros (before & line & after & -> & Hbefore & Hline)%IH.
    exists (l :: before), line, after. split; [done|]. split; [|done].
    by constructor.
Qed.

Lemma first_timestamp_none (lines : list string) :
  first_timestamp lines = None →
  Forall (fun l => line_timestamp l = None) lines.
Proof.
  induction lines as [|l lines IH]; [done|].
  rewrite first_timestamp_cons.
  destruct (line_timestamp l) as [ts'|] eqn:Hl; [done|].
  intros H. constructor; [done|by apply IH].
Qed.


(** X12: every [WorkerState] of a returned [JobProgress] keeps at most 50
    recent durations; they are the last ones, in order, of the samples
    [parse_log_times] reads from the log of the offset, and its
    [last_timestamp] is what [get_last_activity] reads from that log. *)
Theorem analyze_job_recent_times (fs : filesystem) (jobset graph : string)
    (rank n_vertices stride : Z) (notebook_dir var_dir : Path)
    (log_max_lines : Z) (p : JobProgress) :
  analyze_job fs jobset graph rank n_vertices stride notebook_dir var_dir
              log_max_lines = Return p →
  Forall (fun w =>
      let log_file := log_file_path var_dir jobset (WorkerState.offset w) in
      (length (WorkerState.recent_times w) ≤ 50)%nat
      ∧ WorkerState.recent_times w
        `suffix_of` (snd <$> parse_log_times fs log_file log_max_lines)
      ∧ WorkerState.last_timestamp w
        = get_last_activity fs log_file log_max_lines)
    (JobProgress.workers p).
Proof.
  intros (_ & _ & ->)%analyze_job_returned. simpl.
  apply Forall_fmap, Forall_forall. intros o _. simpl.
  change (py_slice_from (-50)) with (@py_tail (datetime * float) 50).
  split; [|split; [|done]].
  - rewrite length_fmap, py_tail_positive, length_drop by lia. lia.
  - destruct (py_tail_suffix 50
      (parse_log_times fs (log_file_path var_dir jobset o) log_max_lines))
      as [k Hk].
    exists (snd <$> k). rewrite Hk at 1. by rewrite fmap_app.
Qed.

End LogsMore.

(** ** The attribution pass: what it records and what it does not *)

Section AttributionMore.

Implicit Types (line : string) (lines seen : list string) (st : scan).
Implicit Types (pw : gmap Z (gset Z)) (wid gidx g : Z).

Lemma backed_by_mono seen seen' wid g :
  (∀ line, line ∈ seen → line ∈ seen') →
  backed_by seen wid g → backed_by seen' wid g.
Proof.
  intros Hsub (line & Hin & Hstart & Hdone & Hwid).
  exists line. split; [by apply Hsub|]. split; [done|]. split; [done|].
  destruct Hwid as [->|(start & Hs & Hws)]; [by left|].
  right. exists start. split; [by apply Hsub|done].
Qed.

(** A line that is neither a worker-start line nor a recorded completion
    event leaves both accumulators alone and keeps or clears the current
    worker. *)
Lemma scan_line_other line st :
  worker_start line = None → completion_event line = None →
  per_worker (scan_line line st) = per_worker st
  ∧ all_gidx (scan_line line st) = all_gidx st
  ∧ (current_wid (scan_line line st) = current_wid st
     ∨ current_wid (scan_line line st) = None).
Proof.
  unfold worker_start, completion_event, scan_line.
  destruct (re_match _WORKER_START_RE line); [done|]. intros _.
  destruct (re_search _DONE_RE line) as [m|]; simpl.
  - intros ->. auto.
  - intros _. destruct (re_match _WORKER_DONE_RE line); simpl; auto.
Qed.

Lemma scan_line_backed pw0 seen line st :
  scan_backed pw0 seen st →
  scan_backed pw0 (seen ++ [line])%list (scan_line line st).
Proof.
  intros [Hattr Hcur].
  assert (∀ l, l ∈ seen → l ∈ (seen ++ [line])%list) as Hsub.
  { intros l Hl. apply elem_of_app. by left. }
  assert (line ∈ (seen ++ [line])%list) as Hline.
  { apply elem_of_app. right. by apply list_elem_of_singleton. }
  destruct (worker_start line) as [id|] eqn:Hstart.
  { rewrite (scan_line_start line st id) by done. split; simpl.
    - intros wid g [?|?]%Hattr; [by left|right].
      by apply (backed_by_mono seen).
    - intros i ->. by exists line. }
  destruct (completion_event line) as [gidx|] eqn:Hdone.
  { rewrite (scan_line_completion line st gidx) by done. split; simpl.
    - intros wid g [[-> ->]|[?|?]%Hattr]%attributed_record_gidx_inv.
      + right. exists line. split; [done|]. split; [done|]. split; [done|].
        destruct (current_wid st) as [i|] eqn:Hi; [|by left]. right.
        destruct (Hcur i eq_refl) as (start & Hs & Hws).
        exists start. split; [by apply Hsub|done].
      + by left.
      + right. by apply (backed_by_mono seen).
    - intros i Hi. destruct (Hcur i Hi) as (start & Hs & Hws).
      exists start. split; [by apply Hsub|done]. }
  destruct (scan_line_other line st Hstart Hdone) as (Hpw & _ & Hcw).
  split.
  - rewrite Hpw. intros wid g [?|?]%Hattr; [by left|right].
    by apply (backed_by_mono seen).
  - intros i Hi. destruct Hcw as [Hcw|Hcw]; rewrite Hcw in Hi; [|done].
    destruct (Hcur i Hi) as (start & Hs & Hws).
    exists start. split; [by apply Hsub|done].
Qed.

Lemma scan_lines_backed pw0 seen lines st :
  scan_backed pw0 seen st →
  scan_backed pw0 (seen ++ lines)%list (scan_lines lines st).
Proof.
  revert seen st. induction lines as [|line lines IH]; intros seen st Hinv.
  - by rewrite app_nil_r.
  - rewrite scan_lines_cons. rewrite (cons_middle line), app_assoc.
    by apply IH, scan_line_backed.
Qed.

(** What the scan of one log attributes was attributed before or is backed
    by the lines of that log. *)
Lemma scan_log_backed lines (acc : gmap Z (gset Z) * gset Z) wid g :
  attributed wid g (scan_log lines acc).1 →
  attributed wid g acc.1 ∨ backed_by lines wid g.
Proof.
  pose proof (scan_lines_backed acc.1 [] lines (mk_scan None acc.1 acc.2)) as H.
  destruct H as [Hattr _]; [|by apply Hattr].
  split; simpl; [by left|done].
Qed.

Lemma per_worker_nonempty_record wid gidx pw :
  (∀ w s, pw !! w = Some s → s ≠ ∅) →
  ∀ w s, record_gidx wid gidx pw !! w = Some s → s ≠ ∅.
Proof.
  intros Hinv w s. unfold record_gidx.
  destruct (decide (wid = w)) as [->|Hne].
  - rewrite lookup_insert_eq. intros [= <-]. set_solver.
  - rewrite lookup_insert_ne by done. apply Hinv.
Qed.

Lemma scan_lines_nonempty lines st :
  (∀ w s, per_worker st !! w = Some s → s ≠ ∅) →
  ∀ w s, per_worker (scan_lines lines st) !! w = Some s → s ≠ ∅.
Proof.
  revert st. induction lines as [|line lines IH]; intros st Hinv; [done|].
  rewrite scan_lines_cons. apply IH.
  destruct (scan_line_accumulators line st)
    as [[-> _]|(gidx & _ & _ & -> & _)]; [done|].
  by apply per_worker_nonempty_record.
Qed.

Section Pass.

Context (fs : filesystem) (var_dir : Path) (log_max_lines : Z) (jobset : string).

Abbreviation pass_step := (breakdown_step fs var_dir log_max_lines jobset).

Lemma steps_backed (ws : list WorkerState) acc wid g :
  attributed wid g (foldl pass_step acc ws).1 →
  attributed wid g acc.1
  ∨ ∃ (w : WorkerState) lines,
      w ∈ ws
      ∧ read_log_tail fs (log_file_path var_dir jobset (WorkerState.offset w))
                      log_max_lines = Some lines
      ∧ backed_by lines wid g.
Proof.
  revert acc. induction ws as [|w ws IH]; intros acc; [by left|].
  simpl. intros [Hstep|(w' & lines & Hw' & Hlog & Hback)]%IH.
  - unfold breakdown_step in Hstep.
    destruct (read_log_tail _ _ _) as [lines|] eqn:Hlog; [|by left].
    apply scan_log_backed in Hstep as [?|Hback]; [by left|].
    right. exists w, lines. split; [by left|done].
  - right. exists w', lines. split; [by right|done].
Qed.

Lemma steps_nonempty (ws : list WorkerState) acc :
  (∀ w s, acc.1 !! w = Some s → s ≠ ∅) →
  ∀ w s, (foldl pass_step acc ws).1 !! w = Some s → s ≠ ∅.
Proof.
  revert acc. induction ws as [|w ws IH]; intros acc Hinv; [done|].
  simpl. apply IH. unfold breakdown_step.
  destruct (read_log_tail _ _ _) as [lines|]; [|done].
  by apply scan_lines_nonempty.
Qed.

End Pass.

(** X13: [worker_case_breakdown_from_logs] attributes nothing that the logs
    do not show.  An index [gidx] in the set of identity [wid] comes from a
    line of the scanned tail of the log of some worker that is a completion
    event with that index; and [wid] is the reserved identity 0 or the
    identity of a worker-start line of that same tail. *)
Theorem worker_case_breakdown_sound (fs : filesystem) (var_dir : Path)
    (log_max_lines : Z) (p : JobProgress) :
  let result := (worker_case_breakdown_from_logs fs var_dir log_max_lines p).1 in
  ∀ wid s gidx,
    result.1 !! wid = Some s → gidx ∈ s →
    ∃ (w : WorkerState) lines line,
      w ∈ JobProgress.workers p
      ∧ read_log_tail fs
          (log_file_path var_dir (JobProgress.jobset p) (WorkerState.offset w))
          log_max_lines = Some lines
      ∧ line ∈ lines
      ∧ completion_event line = Some gidx
      ∧ (wid = 0
         ∨ ∃ start, start ∈ lines ∧ worker_start start = Some (Some wid)).
Proof.
  rewrite worker_case_breakdown_eq. simpl. intros wid s gidx Hs Hg.
  destruct (steps_backed fs var_dir log_max_lines (JobProgress.jobset p)
              (JobProgress.workers p) (∅, ∅) wid gidx)
    as [(s' & Hs' & _)|(w & lines & Hw & Hlog & line & Hl & _ & Hdone & Hwid)].
  - by exists s.
  - simpl in Hs'. by rewrite lookup_empty in Hs'.
  - by exists w, lines, line.
Qed.

(** X14: every set of the per-worker dict returned by
    [worker_case_breakdown_from_logs] is non-empty and is a subset of the
    returned [all_gidx]: an identity is only listed with at least one
    index, and with no more indices than the job-wide set has. *)
Theorem worker_case_breakdown_sets (fs : filesystem) (var_dir : Path)
    (log_max_lines : Z) (p : JobProgress) :
  let result := (worker_case_breakdown_from_logs fs var_dir log_max_lines p).1 in
  ∀ wid s,
    result.1 !! wid = Some s →
    s ≠ ∅ ∧ s ⊆ result.2 ∧ (1 ≤ size s ≤ size result.2)%nat.
Proof.
  rewrite worker_case_breakdown_eq. simpl. intros wid s Hs.
  assert (s ≠ ∅) as Hne.
  { eapply (steps_nonempty fs var_dir log_max_lines (JobProgress.jobset p)
              (JobProgress.workers p) (∅, ∅)); [|exact Hs].
    intros w s'. simpl. by rewrite lookup_empty. }
  assert (s ⊆ (foldl (breakdown_step fs var_dir log_max_lines
                        (JobProgress.jobset p)) (∅, ∅)
                 (JobProgress.workers p)).2) as Hsub.
  { intros g Hg.
    apply (steps_union_of fs var_dir log_max_lines (JobProgress.jobset p)
             (JobProgress.workers p) (∅, ∅) union_of_empty g).
    by exists wid, s. }
  split; [done|]. split; [done|]. split.
  - destruct (size s) eqn:Hsz; [|lia].
    apply size_empty_inv in Hsz. by apply leibniz_equiv in Hsz.
  - by apply subseteq_size.
Qed.

End AttributionMore.

(* ------------------------------------------------------------------ *)
(** ** File names: [sanitize_for_filename], [str] and the two paths *)

Section NamesMore.

Implicit Types s t u cur ws : string.

Lemma string_app_cons (c : ascii) s t :
  (String c s ++ t)%string = String c (s ++ t).
Proof. reflexivity. Qed.

Lemma string_app_assoc s t u : ((s ++ t) ++ u = s ++ (t ++ u))%string.
Proof. induction s as [|c s IH]; [done|]. by rewrite !string_app_cons, IH. Qed.

Lemma string_app_nil_r s : (s ++ EmptyString)%string = s.
Proof. induction s as [|c s IH]; [done|]. by rewrite string_app_cons, IH. Qed.

Lemma string_length_app s t :
  String.length (s ++ t) = (String.length s + String.length t)%nat.
Proof.
  induction s as [|c s IH]; [done|]. rewrite string_app_cons. simpl. by rewrite IH.
Qed.

Lemma string_forall_app (p : ascii → bool) s t :
  string_forall p (s ++ t) = string_forall p s && string_forall p t.
Proof.
  induction s as [|c s IH]; [done|].
  rewrite string_app_cons. cbn [string_forall]. by rewrite IH, andb_assoc.
Qed.

Lemma string_forall_impl (p q : ascii → bool) s :
  (∀ c, p c = true → q c = true) →
  string_forall p s = true → string_forall q s = true.
Proof.
  intros Hpq. induction s as [|c s IH]; [done|]. cbn [string_forall].
  intros [Hc Hs]%andb_prop. by rewrite (Hpq c Hc), IH.
Qed.

(** A kept character is neither a slash nor a blank. *)
Lemma keep_in_filename_char (c : ascii) :
  keep_in_filename c = true → not_slash_or_blank c = true.
Proof.
  destruct c as [[] [] [] [] [] [] [] []]; vm_compute; congruence.
Qed.

Lemma keep_in_filename_underscore : keep_in_filename "_"%char = true.
Proof. reflexivity. Qed.

Lemma sanitize_length s :
  String.length (sanitize_for_filename s) = String.length s.
Proof.
  induction s as [|c s IH]; [done|].
  cbn [sanitize_for_filename String.length]. by rewrite IH.
Qed.

Lemma sanitize_safe s :
  string_forall keep_in_filename (sanitize_for_filename s) = true.
Proof.
  induction s as [|c s IH]; [done|].
  cbn [sanitize_for_filename string_forall]. rewrite IH, andb_true_r.
  destruct (keep_in_filename c) eqn:Hc; [done|]. apply keep_in_filename_underscore.
Qed.

Lemma sanitize_fixed s :
  sanitize_for_filename s = s ↔ string_forall keep_in_filename s = true.
Proof.
  induction s as [|c s IH]; [done|].
  cbn [sanitize_for_filename string_forall]. split.
  - intros [= Hc Hs]. apply IH in Hs. rewrite Hs, andb_true_r.
    destruct (keep_in_filename c) eqn:Hk; [done|].
    rewrite <- Hc in Hk. by rewrite keep_in_filename_underscore in Hk.
  - intros [Hc Hs]%andb_prop. rewrite Hc. f_equal. by apply IH.
Qed.

(** X15: [sanitize_for_filename] keeps the length of its argument, returns
    only alphanumerics and [._-] (so no slash and no blank: the result is
    one path component), leaves a text unchanged exactly when the text is
    already made of such characters, and is therefore idempotent. *)
Theorem sanitize_for_filename_safe s :
  String.length (sanitize_for_filename s) = String.length s
  ∧ string_forall keep_in_filename (sanitize_for_filename s) = true
  ∧ string_forall not_slash_or_blank (sanitize_for_filename s) = true
  ∧ (sanitize_for_filename s = s ↔ string_forall keep_in_filename s = true)
  ∧ sanitize_for_filename (sanitize_for_filename s) = sanitize_for_filename s.
Proof.
  split; [apply sanitize_length|]. split; [apply sanitize_safe|].
  split; [|split; [apply sanitize_fixed|apply sanitize_fixed, sanitize_safe]].
  eapply string_forall_impl; [apply keep_in_filename_char|apply sanitize_safe].
Qed.

(** *** The digits of [str(n)] *)

Lemma pretty_N_char_digit (x : N) :
  (x < 10)%N →
  py_isdecimal (pretty_N_char x) = true ∧ ord (pretty_N_char x) - 48 = Z.of_N x.
Proof.
  intros Hx. rewrite <- (N2Nat.id x) in *.
  assert (N.to_nat x < 10)%nat as Hn by lia. clear Hx.
  generalize dependent (N.to_nat x). intros n Hn.
  do 10 (destruct n as [|n]; [by vm_compute|]). lia.
Qed.

Lemma digit_not_blank (c : ascii) : py_isdecimal c = true → py_isspace c = false.
Proof.
  destruct c as [[] [] [] [] [] [] [] []]; vm_compute; congruence.
Qed.

(** Reading the digits that [pretty] writes: [k] digits, of value [x]. *)
Lemma int_digits_pretty_N_go (x : N) :
  ∀ (b : bool) (d : nat) (acc : Z) s,
  (0 < x)%N →
  ∃ k : nat, (0 < k)%nat ∧ 10 ^ (Z.of_nat k - 1) ≤ Z.of_N x
    ∧ int_digits b d acc (pretty_N_go x s)
      = int_digits false (d + k) (acc * 10 ^ Z.of_nat k + Z.of_N x) s.
Proof.
  induction (N.lt_wf_0 x) as [x _ IH]. intros b d acc s Hx.
  rewrite pretty_N_go_step by done.
  pose proof (N.mod_lt x 10 ltac:(lia)) as Hmod.
  destruct (pretty_N_char_digit (x `mod` 10)%N Hmod) as [Hdig Hval].
  pose proof (N.div_mod x 10 ltac:(lia)) as Hdm.
  set (q := (x `div` 10)%N) in *. set (r := (x `mod` 10)%N) in *.
  destruct (decide (q = 0)%N) as [Hz|Hnz].
  - rewrite Hz, pretty_N_go_0. cbn [int_digits]. rewrite Hdig. exists 1%nat.
    split; [lia|]. split; [change (10 ^ (Z.of_nat 1 - 1)) with 1; lia|].
    rewrite Hval. f_equal; [lia|]. change (10 ^ Z.of_nat 1) with 10. lia.
  - destruct (IH q ltac:(lia) b d acc (String (pretty_N_char r) s) ltac:(lia))
      as (k & Hk & Hlow & ->).
    cbn [int_digits]. rewrite Hdig, Hval. exists (S k). split; [lia|]. split.
    + replace (Z.of_nat (S k) - 1) with (Z.succ (Z.of_nat k - 1)) by lia.
      rewrite Z.pow_succ_r by lia.
      generalize dependent (10 ^ (Z.of_nat k - 1)). intros; lia.
    + f_equal; [lia|].
      replace (Z.of_nat (S k)) with (Z.succ (Z.of_nat k)) by lia.
      rewrite Z.pow_succ_r by lia.
      generalize (10 ^ Z.of_nat k). intros; lia.
Qed.

(** The digits [pretty] writes in front of [s]. *)
Lemma pretty_N_go_digits (x : N) s :
  (0 < x)%N →
  ∃ c t, pretty_N_go x s = (String c t ++ s)%string
         ∧ string_forall py_isdecimal (String c t) = true.
Proof.
  revert s. induction (N.lt_wf_0 x) as [x _ IH]. intros s Hx.
  rewrite pretty_N_go_step by done.
  pose proof (N.mod_lt x 10 ltac:(lia)) as Hmod.
  destruct (pretty_N_char_digit (x `mod` 10)%N Hmod) as [Hdig _].
  destruct (decide (x `div` 10 = 0)%N) as [Hz|Hnz].
  - rewrite Hz, pretty_N_go_0. exists (pretty_N_char (x `mod` 10)), EmptyString.
    split; [done|]. cbn [string_forall]. by rewrite Hdig.
  - destruct (IH (x `div` 10)%N ltac:(apply N.div_lt; lia)
                (String (pretty_N_char (x `mod` 10)) s)
                ltac:(by apply N.neq_0_lt_0))
      as (c & t & -> & Ht).
    exists c, (t ++ String (pretty_N_char (x `mod` 10)) EmptyString)%string. split.
    + by rewrite !string_app_cons, string_app_assoc.
    + cbn [string_forall] in *. apply andb_prop in Ht as [-> Ht].
      rewrite string_forall_app, Ht. cbn [string_forall]. by rewrite Hdig.
Qed.

Lemma pow10_lt_inv (k m : Z) : 0 ≤ k → 0 ≤ m → 10 ^ k < 10 ^ m → k < m.
Proof.
  intros Hk Hm H. destruct (Z.lt_ge_cases k m); [done|].
  pose proof (Z.pow_le_mono_r 10 m k ltac:(lia) ltac:(lia)). lia.
Qed.

(** [str(n)] is a sign and digits: a non-empty text with no blank in it. *)
Lemma py_str_int_not_blank (n : Z) :
  is_empty (py_str_int n) = false ∧ string_forall not_blank (py_str_int n) = true.
Proof.
  assert (∀ x : positive, is_empty (pretty (N.pos x)) = false
            ∧ string_forall not_blank (pretty (N.pos x)) = true) as Hpos.
  { intros x. unfold pretty, pretty_N. rewrite decide_False by done.
    destruct (pretty_N_go_digits (N.pos x) "" ltac:(lia)) as (c & t & -> & Ht).
    split; [done|]. rewrite string_app_nil_r.
    eapply string_forall_impl; [|exact Ht].
    intros c' Hc'. unfold not_blank. by rewrite digit_not_blank. }
  unfold py_str_int. destruct n as [|x|x].
  - done.
  - apply Hpos.
  - change (pretty (Z.neg x)) with (String "-" (pretty (N.pos x))).
    destruct (Hpos x) as [_ H]. split; [done|].
    cbn [string_forall]. by rewrite H.
Qed.

Lemma py_str_int_sign_or_digit (n : Z) :
  string_forall sign_or_digit (py_str_int n) = true.
Proof.
  assert (∀ x : positive,
            string_forall sign_or_digit (pretty (N.pos x)) = true) as Hpos.
  { intros x. unfold pretty, pretty_N. rewrite decide_False by done.
    destruct (pretty_N_go_digits (N.pos x) "" ltac:(lia)) as (c & t & -> & Ht).
    rewrite string_app_nil_r.
    eapply string_forall_impl; [|exact Ht].
    intros c' Hc'. unfold sign_or_digit. by rewrite Hc'. }
  unfold py_str_int. destruct n as [|x|x].
  - done.
  - apply Hpos.
  - change (pretty (Z.neg x)) with (String "-" (pretty (N.pos x))).
    cbn [string_forall]. by rewrite Hpos.
Qed.

(** [int(str(n))] is [n], as long as [str(n)] has at most 4300 digits. *)
Lemma py_int_py_str_int (n : Z) :
  Z.abs n < 10 ^ Z.of_nat int_max_str_digits → py_int (py_str_int n) = Some n.
Proof.
  intros Hn.
  assert (∀ x : positive, Z.pos x < 10 ^ Z.of_nat int_max_str_digits →
            py_int (pretty (N.pos x)) = Some (Z.pos x)
            ∧ ∃ k : nat, (k ≤ int_max_str_digits)%nat
                ∧ int_digits true 0 0 (pretty (N.pos x)) = Some (k, Z.pos x))
    as Hpos.
  { intros x Hx. unfold pretty, pretty_N. rewrite decide_False by done.
    destruct (int_digits_pretty_N_go (N.pos x) true 0 0 "" ltac:(lia))
      as (k & Hk & Hlow & Hd).
    assert (Z.of_nat k - 1 < Z.of_nat int_max_str_digits) as Hlen.
    { apply pow10_lt_inv; [lia|lia|].
      generalize dependent (10 ^ Z.of_nat int_max_str_digits).
      generalize dependent (10 ^ (Z.of_nat k - 1)). intros; lia. }
    cbn [int_digits] in Hd. rewrite Z.mul_0_l, Z.add_0_l, Nat.add_0_l in Hd.
    change (Z.of_N (N.pos x)) with (Z.pos x) in Hd.
    split; [|exists k; split; [lia|done]].
    destruct (pretty_N_go_digits (N.pos x) "" ltac:(lia)) as (c & t & Hc & Ht).
    rewrite Hc in *. cbn [string_forall] in Ht. apply andb_prop in Ht as [Hdig _].
    unfold py_int. rewrite ?string_app_cons.
    assert ((ord c =? 43) = false) as ->.
    { unfold py_isdecimal, in_range in Hdig. lia. }
    assert ((ord c =? 45) = false) as ->.
    { unfold py_isdecimal, in_range in Hdig. lia. }
    rewrite ?string_app_cons in Hd. rewrite Hd.
    destruct (Nat.ltb_spec int_max_str_digits k); [lia|done]. }
  unfold py_str_int. destruct n as [|x|x].
  - reflexivity.
  - by apply Hpos.
  - destruct (Hpos x ltac:(done)) as (_ & k & Hk & Hd).
    change (pretty (Z.neg x)) with (String "-" (pretty (N.pos x))).
    unfold py_int.
    change (ord "-" =? 43) with false. change (ord "-" =? 45) with true. cbv iota.
    rewrite Hd. destruct (Nat.ltb_spec int_max_str_digits k); [lia|done].
Qed.

(** *** Tokens *)

Lemma py_split_go_blank cur ws :
  string_forall py_isspace ws = true →
  py_split_go cur ws = if is_empty cur then [] else [cur].
Proof.
  revert cur. induction ws as [|c ws IH]; intros cur; [done|].
  cbn [string_forall py_split_go].
  intros [-> Hws]%andb_prop. destruct (is_empty cur); by rewrite IH.
Qed.

(** A run of non-blank characters followed by blanks is one token. *)
Lemma py_split_go_token cur t ws :
  string_forall not_blank t = true → string_forall py_isspace ws = true →
  py_split_go cur (t ++ ws)
  = if is_empty (cur ++ t) then [] else [(cur ++ t)%string].
Proof.
  intros Ht Hws. revert cur Ht. induction t as [|c t IH]; intros cur Ht.
  - rewrite string_app_nil_r. by apply py_split_go_blank.
  - cbn [string_forall] in Ht. apply andb_prop in Ht as [Hc Ht].
    rewrite string_app_cons. cbn [py_split_go].
    unfold not_blank in Hc. apply negb_true_iff in Hc. rewrite Hc.
    rewrite IH by done. by rewrite string_app_assoc.
Qed.

Lemma py_split_go_leading ws s :
  string_forall py_isspace ws = true →
  py_split_go EmptyString (ws ++ s) = py_split_go EmptyString s.
Proof.
  induction ws as [|c ws IH]; [done|]. cbn [string_forall].
  intros [Hc Hws]%andb_prop. rewrite string_app_cons. cbn [py_split_go].
  rewrite Hc. cbn [is_empty]. by apply IH.
Qed.

(** The tokens of [str(n)] between blanks. *)
Lemma py_split_py_str_int (n : Z) ws ws' :
  string_forall py_isspace ws = true → string_forall py_isspace ws' = true →
  py_split (ws ++ py_str_int n ++ ws') = [py_str_int n].
Proof.
  intros Hws Hws'. unfold py_split. rewrite py_split_go_leading by done.
  destruct (py_str_int_not_blank n) as [Hne Hnb].
  rewrite py_split_go_token by done.
  change (EmptyString ++ py_str_int n)%string with (py_str_int n). by rewrite Hne.
Qed.

(** X16: the checkpoint round trip.  A state file that holds the decimal
    rendering [str(n)] of an integer, with any blanks (a newline, say)
    before and after it, is read back as [n] by [parse_state_file], as long
    as [n] has at most 4300 digits, the longest literal [int] converts. *)
Theorem parse_state_file_reads_back (fs : filesystem) (path : Path) (n : Z)
    (ws ws' : string) :
  fs_exists fs path = true →
  fs_read_text fs path = ReadText (ws ++ py_str_int n ++ ws') →
  string_forall py_isspace ws = true → string_forall py_isspace ws' = true →
  Z.abs n < 10 ^ Z.of_nat int_max_str_digits →
  parse_state_file fs path = Return (Some n).
Proof.
  intros Hex Hread Hws Hws' Hn.
  rewrite parse_state_file_eq. unfold checkpoint_value.
  rewrite Hex, Hread, py_split_py_str_int by done. cbn [hd_error mbind option_bind].
  by rewrite py_int_py_str_int.
Qed.

(** *** The two paths of an offset *)

(** A text is cut in one way only at the first character outside a class. *)
Lemma string_app_sep_inj (p : ascii → bool) (s1 s2 t1 t2 : string)
    (c1 c2 : ascii) :
  string_forall p s1 = true → string_forall p s2 = true →
  p c1 = false → p c2 = false →
  (s1 ++ String c1 t1 = s2 ++ String c2 t2)%string → s1 = s2 ∧ t1 = t2.
Proof.
  intros H1 H2 Hc1 Hc2. revert s2 H1 H2.
  induction s1 as [|a s1 IH]; intros [|b s2] H1 H2; rewrite ?string_app_cons;
    cbn [string_forall] in *.
  - change (EmptyString ++ ?s)%string with s. by intros [= _ ->].
  - change (EmptyString ++ ?s)%string with s. intros [= -> _].
    apply andb_prop in H2 as [H2 _]. congruence.
  - change (EmptyString ++ ?s)%string with s. intros [= -> _].
    apply andb_prop in H1 as [H1 _]. congruence.
  - intros [= -> Heq]. apply andb_prop in H1 as [_ H1].
    apply andb_prop in H2 as [_ H2].
    destruct (IH s2 H1 H2 Heq) as [-> ->]. done.
Qed.

Lemma py_str_int_sep_inj (n m : Z) (c1 c2 : ascii) (t1 t2 : string) :
  sign_or_digit c1 = false → sign_or_digit c2 = false →
  (py_str_int n ++ String c1 t1 = py_str_int m ++ String c2 t2)%string →
  n = m ∧ t1 = t2.
Proof.
  intros Hc1 Hc2 Heq.
  destruct (string_app_sep_inj sign_or_digit _ _ _ _ _ _
              (py_str_int_sign_or_digit n) (py_str_int_sign_or_digit m)
              Hc1 Hc2 Heq) as [Hnm ->].
  split; [|done]. by apply (inj pretty).
Qed.

(** X17: the files of a job do not collide.  For one notebook directory and
    one graph, the state file path determines the rank, the stride and the
    offset; for one var directory and one jobset, the log path determines
    the offset.  So two offsets of a job never share a checkpoint or a
    log. *)
Theorem offset_files_distinct (notebook_dir var_dir : Path)
    (graph_sanitized jobset : string)
    (rank stride offset rank' stride' offset' : Z) :
  (state_file_path notebook_dir graph_sanitized rank stride offset
   = state_file_path notebook_dir graph_sanitized rank' stride' offset'
   ↔ rank = rank' ∧ stride = stride' ∧ offset = offset')
  ∧ (log_file_path var_dir jobset offset = log_file_path var_dir jobset offset'
     ↔ offset = offset').
Proof.
  split; split.
  - unfold state_file_path, path_join. intros Heq.
    do 2 apply String.app_inj in Heq.
    change ("state_" ++ ?s)%string
      with (String "s" (String "t" (String "a" (String "t" (String "e"
             (String "_" s)))))) in Heq.
    injection Heq as Heq. apply String.app_inj in Heq.
    injection Heq as Heq.
    apply py_str_int_sep_inj in Heq as [-> Heq]; [|done..].
    injection Heq as Heq.
    apply py_str_int_sep_inj in Heq as [-> Heq]; [|done..].
    injection Heq as Heq.
    apply py_str_int_sep_inj in Heq as [-> Heq]; [|done..].
    done.
  - by intros (-> & -> & ->).
  - unfold log_file_path, path_join. intros Heq.
    do 3 apply String.app_inj in Heq.
    injection Heq as Heq.
    by apply py_str_int_sep_inj in Heq as [-> _].
  - by intros ->.
Qed.

End NamesMore.

(* ------------------------------------------------------------------ *)
(** ** The configuration readers *)

Section ConfigMore.

Implicit Types s k v raw line rest : string.

Lemma parse_env_lines_snoc (lines : list string) raw :
  parse_env_lines (lines ++ [raw])%list
  = parse_env_line (parse_env_lines lines) raw.
Proof. unfold parse_env_lines. by rewrite foldl_app. Qed.

(** A key is bound to the value of the last line that binds it. *)
Lemma parse_env_lines_last_binding (lines : list string) k v :
  parse_env_lines lines !! k = Some v ↔
  ∃ (i : nat) raw,
    lines !! i = Some raw ∧ env_binding raw = Some (k, v)
    ∧ ∀ (j : nat) raw' v',
        (i < j)%nat → lines !! j = Some raw' → env_binding raw' ≠ Some (k, v').
Proof.
  revert v. induction lines as [|raw lines IH] using rev_ind; intros v.
  { unfold parse_env_lines. simpl. rewrite lookup_empty. split; [done|].
    by intros (i & raw & Hi & _). }
  rewrite parse_env_lines_snoc. unfold parse_env_line.
  assert (∀ w, (∃ (i : nat) (raw0 : string),
             lines !! i = Some raw0 ∧ env_binding raw0 = Some (k, w)
             ∧ ∀ (j : nat) (raw' v' : string), (i < j)%nat →
                 lines !! j = Some raw' → env_binding raw' ≠ Some (k, v'))
          → (∀ v', env_binding raw ≠ Some (k, v'))
          → ∃ (i : nat) (raw0 : string),
             (lines ++ [raw])%list !! i = Some raw0
             ∧ env_binding raw0 = Some (k, w)
             ∧ ∀ (j : nat) (raw' v' : string), (i < j)%nat →
                 (lines ++ [raw])%list !! j = Some raw' →
                 env_binding raw' ≠ Some (k, v'))
    as Hold.
  { intros w (i & raw0 & Hi & Hb & Hlast) Hraw. exists i, raw0.
    split; [by apply lookup_app_l_Some|]. split; [done|].
    intros j raw' v' Hij Hj. apply lookup_app_Some in Hj as [Hj|[Hlen Hj]].
    - by eapply Hlast.
    - apply list_lookup_singleton_Some in Hj as [_ <-]. apply Hraw. }
  assert (∀ w, (∃ (i : nat) (raw0 : string),
             (lines ++ [raw])%list !! i = Some raw0
             ∧ env_binding raw0 = Some (k, w)
             ∧ ∀ (j : nat) (raw' v' : string), (i < j)%nat →
                 (lines ++ [raw])%list !! j = Some raw' →
                 env_binding raw' ≠ Some (k, v'))
          → (∀ v', env_binding raw ≠ Some (k, v'))
          → ∃ (i : nat) (raw0 : string),
             lines !! i = Some raw0 ∧ env_binding raw0 = Some (k, w)
             ∧ ∀ (j : nat) (raw' v' : string), (i < j)%nat →
                 lines !! j = Some raw' → env_binding raw' ≠ Some (k, v'))
    as Hnew.
  { intros w (i & raw0 & Hi & Hb & Hlast) Hraw. exists i, raw0.
    apply lookup_app_Some in Hi as [Hi|[Hlen Hi]].
    - split; [done|]. split; [done|]. intros j raw' v' Hij Hj.
      apply (Hlast j raw' v' Hij). by apply lookup_app_l_Some.
    - apply list_lookup_singleton_Some in Hi as [_ <-]. by destruct (Hraw w). }
  destruct (env_binding raw) as [[k' v']|] eqn:Hraw.
  - destruct (decide (k' = k)) as [->|Hne].
    + rewrite lookup_insert_eq. split.
      * intros [= <-]. exists (length lines), raw.
        split; [by rewrite list_lookup_middle|]. split; [done|].
        intros j raw' w Hj Hl. apply lookup_lt_Some in Hl.
        rewrite length_app in Hl. simpl in Hl. lia.
      * intros (i & raw0 & Hi & Hb & Hlast).
        apply lookup_app_Some in Hi as [Hi|[Hlen Hi]].
        -- pose proof (lookup_lt_Some _ _ _ Hi) as Hlt.
           destruct (Hlast (length lines) raw v' Hlt); [|done].
           by rewrite list_lookup_middle.
        -- apply list_lookup_singleton_Some in Hi as [_ <-]. congruence.
    + rewrite lookup_insert_ne by done. rewrite IH. split.
      * intros H. apply Hold; [done|]. congruence.
      * intros H. apply Hnew; [done|]. congruence.
  - rewrite IH. split.
    + intros H. by apply Hold.
    + intros H. by apply Hnew.
Qed.

(** X18: in the dict that [parse_env_file] returns, the last binding wins:
    a key [k] is bound to [v] exactly when some line of the file binds [k]
    to [v] and no later line binds [k].  A line binds nothing when it is
    blank, a comment, or has no equals sign. *)
Theorem parse_env_file_last_binding (fs : filesystem) (path : Path)
    (txt : string) :
  fs_read_text fs path = ReadText txt →
  ∃ env, parse_env_file fs path = Return env
    ∧ ∀ k v,
        env !! k = Some v ↔
        ∃ (i : nat) raw,
          py_splitlines txt !! i = Some raw ∧ env_binding raw = Some (k, v)
          ∧ ∀ (j : nat) raw' v',
              (i < j)%nat → py_splitlines txt !! j = Some raw' →
              env_binding raw' ≠ Some (k, v').
Proof.
  intros Hread. unfold parse_env_file, read_text. rewrite Hread. simpl.
  eexists. split; [done|]. apply parse_env_lines_last_binding.
Qed.

Lemma split_at_eq_Some s k v :
  split_at_eq s = Some (k, v) →
  s = (k ++ String "=" v)%string ∧ string_forall not_eq_sign k = true.
Proof.
  revert k. induction s as [|c s IH]; intros k; [done|]. cbn [split_at_eq].
  destruct (Z.eqb_spec (ord c) 61) as [Hc|Hc].
  - intros [= <- <-]. split; [|done].
    apply ord_inj in Hc. by rewrite Hc.
  - destruct (split_at_eq s) as [[k0 v0]|]; [|done]. simpl.
    intros [= <- <-]. destruct (IH k0 eq_refl) as [-> Hk0]. split; [done|].
    cbn [string_forall]. rewrite Hk0, andb_true_r. unfold not_eq_sign.
    by apply negb_true_iff, Z.eqb_neq.
Qed.

Lemma split_at_eq_app k rest :
  string_forall not_eq_sign k = true →
  split_at_eq (k ++ String "=" rest) = Some (k, rest).
Proof.
  induction k as [|c k IH]; [done|]. cbn [string_forall].
  intros [Hc Hk]%andb_prop. rewrite string_app_cons. cbn [split_at_eq].
  unfold not_eq_sign in Hc. apply negb_true_iff in Hc. rewrite Hc.
  by rewrite IH.
Qed.

Lemma py_rstrip_forall (p : ascii → bool) s :
  string_forall p s = true → string_forall p (py_rstrip s) = true.
Proof.
  induction s as [|c s IH]; [done|]. cbn [string_forall py_rstrip].
  intros [Hc Hs]%andb_prop. destruct (_ && _); [done|].
  cbn [string_forall]. by rewrite Hc, IH.
Qed.

Lemma py_lstrip_forall (p : ascii → bool) s :
  string_forall p s = true → string_forall p (py_lstrip s) = true.
Proof.
  induction s as [|c s IH]; [done|]. cbn [string_forall py_lstrip].
  intros [Hc Hs]%andb_prop. destruct (py_isspace c); [by apply IH|].
  cbn [string_forall]. by rewrite Hc.
Qed.

Lemma py_strip_forall (p : ascii → bool) s :
  string_forall p s = true → string_forall p (py_strip s) = true.
Proof. intros H. by apply py_rstrip_forall, py_lstrip_forall. Qed.

Lemma py_rstrip_idemp s : py_rstrip (py_rstrip s) = py_rstrip s.
Proof.
  induction s as [|c s IH]; [done|]. cbn [py_rstrip].
  destruct (is_empty (py_rstrip s) && py_isspace c) eqn:E; [done|].
  cbn [py_rstrip]. by rewrite IH, E.
Qed.

Lemma py_rstrip_cons (c : ascii) s :
  py_isspace c = false → py_rstrip (String c s) = String c (py_rstrip s).
Proof. intros Hc. cbn [py_rstrip]. by rewrite Hc, andb_false_r. Qed.

Lemma py_lstrip_cons (c : ascii) s :
  py_isspace c = false → py_lstrip (String c s) = String c s.
Proof. intros Hc. cbn [py_lstrip]. by rewrite Hc. Qed.

Lemma py_rstrip_end s (c : ascii) :
  py_isspace c = false →
  py_rstrip (s ++ String c EmptyString) = (s ++ String c EmptyString)%string.
Proof.
  intros Hc. induction s as [|a s IH].
  - change (EmptyString ++ ?t)%string with t. by rewrite py_rstrip_cons.
  - rewrite string_app_cons. cbn [py_rstrip]. rewrite IH.
    by destruct s.
Qed.

(** A stripped text is empty or starts with a character that is no blank. *)
Lemma py_strip_shape s :
  py_strip s = EmptyString
  ∨ ∃ c r, py_strip s = String c r ∧ py_isspace c = false.
Proof.
  unfold py_strip. pose proof (py_lstrip_first s) as Hfirst.
  destruct (py_lstrip s) as [|c r]; [by left|].
  right. rewrite py_rstrip_cons by done. eauto.
Qed.

Lemma py_strip_idemp s : py_strip (py_strip s) = py_strip s.
Proof.
  destruct (py_strip_shape s) as [->|(c & r & Hs & Hc)]; [done|].
  unfold py_strip in *. rewrite Hs, py_lstrip_cons by done.
  by rewrite <- Hs, py_rstrip_idemp.
Qed.

(** The key of a binding: stripped, with no equals sign, and not the start
    of a comment. *)
Lemma env_binding_key raw k v :
  env_binding raw = Some (k, v) →
  py_strip k = k ∧ string_forall not_eq_sign k = true
  ∧ starts_with_hash k = false.
Proof.
  unfold env_binding.
  destruct (is_empty (py_strip raw) || starts_with_hash (py_strip raw)) eqn:E;
    [done|].
  apply orb_false_elim in E as [Hne Hhash].
  destruct (split_at_eq (py_strip raw)) as [[k0 v0]|] eqn:Hsplit; [|done].
  intros [= <- <-]. apply split_at_eq_Some in Hsplit as [Hline Hk0].
  split; [apply py_strip_idemp|]. split; [by apply py_strip_forall|].
  destruct (py_strip_shape raw) as [Hs|(c & r & Hs & Hc)].
  { by rewrite Hs in Hne. }
  rewrite Hs in Hline, Hhash.
  destruct k0 as [|c0 k0]; [done|].
  injection Hline as <- _.
  unfold py_strip. rewrite py_lstrip_cons, py_rstrip_cons by done. done.
Qed.

Lemma parse_env_lines_keys (lines : list string) :
  map_Forall (fun k _ => py_strip k = k ∧ string_forall not_eq_sign k = true
                         ∧ starts_with_hash k = false)
             (parse_env_lines lines).
Proof.
  induction lines as [|raw lines IH] using rev_ind.
  { apply map_Forall_empty. }
  rewrite parse_env_lines_snoc. unfold parse_env_line.
  destruct (env_binding raw) as [[k v]|] eqn:Hraw; [|done].
  apply map_Forall_insert_2; [|done]. by eapply env_binding_key.
Qed.

(** X19: every key of the dict that [parse_env_file] returns is stripped
    (no blank at either end), holds no equals sign, and does not start with
    the comment character; the empty key is possible. *)
Theorem parse_env_file_keys (fs : filesystem) (path : Path)
    (env : gmap string string) :
  parse_env_file fs path = Return env →
  map_Forall (fun k _ => py_strip k = k ∧ string_forall not_eq_sign k = true
                         ∧ starts_with_hash k = false) env.
Proof.
  unfold parse_env_file, read_text.
  destruct (fs_read_text fs path) as [txt| |]; [|done..]. simpl.
  intros [= <-]. apply parse_env_lines_keys.
Qed.

Lemma string_get_end s (c : ascii) rest :
  String.get (String.length s) (s ++ String c rest) = Some c.
Proof. induction s as [|a s IH]; [done|]. by rewrite string_app_cons. Qed.

Lemma substring_prefix s rest : substring 0 (String.length s) (s ++ rest) = s.
Proof.
  induction s as [|a s IH]; [by destruct rest|].
  rewrite string_app_cons. simpl. by rewrite IH.
Qed.

Lemma unquote_quoted (q : ascii) v :
  ord q = 34 ∨ ord q = 39 →
  unquote (String q (v ++ String q EmptyString)) = v.
Proof.
  intros Hq. unfold unquote.
  assert (String.length (String q (v ++ String q EmptyString))
          = S (S (String.length v))) as Hlen.
  { simpl. rewrite string_length_app. simpl. lia. }
  assert (last_char (String q (v ++ String q EmptyString)) = Some q) as Hlast.
  { unfold last_char. rewrite Hlen.
    replace (S (S (String.length v)) - 1)%nat with (S (String.length v)) by lia.
    cbn [String.get]. apply string_get_end. }
  assert (is_quoted_by 34 (String q (v ++ String q EmptyString))
          || is_quoted_by 39 (String q (v ++ String q EmptyString)) = true)
    as Hquoted.
  { unfold is_quoted_by. rewrite Hlast. cbn [next_char].
    destruct Hq as [-> | ->]; done. }
  rewrite Hquoted, Hlen.
  replace (S (S (String.length v)) - 2)%nat with (String.length v) by lia.
  cbn [substring Nat.leb andb]. apply substring_prefix.
Qed.

Lemma quote_not_blank (q : ascii) :
  ord q = 34 ∨ ord q = 39 → py_isspace q = false ∧ not_linebreak q = true.
Proof. intros [H|H]; apply ord_inj in H; by subst q. Qed.

Lemma py_strip_quoted (q : ascii) v :
  ord q = 34 ∨ ord q = 39 →
  py_strip (String q (v ++ String q EmptyString))
  = String q (v ++ String q EmptyString).
Proof.
  intros [Hq _]%quote_not_blank. unfold py_strip.
  rewrite py_lstrip_cons, py_rstrip_cons by done.
  by rewrite py_rstrip_end.
Qed.

(** What a line [k=qvq] binds. *)
Lemma env_binding_quoted_line (q : ascii) k v :
  ord q = 34 ∨ ord q = 39 →
  py_strip k = k → string_forall not_eq_sign k = true →
  starts_with_hash k = false →
  env_binding (quoted_line q (k, v)) = Some (k, v).
Proof.
  intros Hq Hstrip Hk Hhash. unfold env_binding, quoted_line.
  simpl fst. simpl snd.
  change ("=" ++ ?s)%string with (String "=" s).
  assert (py_strip (k ++ String "=" (String q (v ++ String q EmptyString)))
          = (k ++ String "=" (String q (v ++ String q EmptyString)))%string)
    as ->.
  { destruct (quote_not_blank q Hq) as [Hqb _].
    replace (k ++ String "=" (String q (v ++ String q EmptyString)))%string
      with ((k ++ String "=" (String q v)) ++ String q EmptyString)%string
      by by rewrite string_app_assoc.
    unfold py_strip.
    destruct (py_strip_shape k) as [Hs|(c & r & Hs & Hc)];
      rewrite Hstrip in Hs; subst k.
    - change (EmptyString ++ ?s)%string with s. rewrite !string_app_cons.
      rewrite py_lstrip_cons by done. rewrite <- !string_app_cons.
      by rewrite py_rstrip_end.
    - rewrite !string_app_cons. rewrite py_lstrip_cons by done.
      rewrite <- !string_app_cons. by rewrite py_rstrip_end. }
  assert (is_empty (k ++ String "=" (String q (v ++ String q EmptyString)))
          = false) as ->.
  { by destruct k. }
  assert (starts_with_hash
            (k ++ String "=" (String q (v ++ String q EmptyString))) = false)
    as ->.
  { by destruct k. }
  cbn [orb]. rewrite split_at_eq_app by done.
  by rewrite Hstrip, py_strip_quoted, unquote_quoted.
Qed.

Lemma py_splitlines_go_line cur line rest :
  string_forall not_linebreak line = true →
  py_splitlines_go cur (line ++ LF ++ rest)
  = (cur ++ line)%string :: py_splitlines_go EmptyString rest.
Proof.
  revert cur. induction line as [|c line IH]; intros cur Hline.
  - change (EmptyString ++ ?s)%string with s. rewrite string_app_nil_r.
    unfold LF. rewrite string_app_cons. change (EmptyString ++ ?s)%string with s.
    cbn [py_splitlines_go].
    change (py_islinebreak (ascii_of_nat 10)) with true. cbv iota.
    change (ord (ascii_of_nat 10) =? 13) with false. cbn [andb]. by destruct rest.
  - cbn [string_forall] in Hline. apply andb_prop in Hline as [Hc Hline].
    rewrite string_app_cons. cbn [py_splitlines_go].
    unfold not_linebreak in Hc. apply negb_true_iff in Hc. rewrite Hc.
    rewrite IH by done. by rewrite string_app_assoc.
Qed.

(** [splitlines] gives back the lines that [unlines] joined. *)
Lemma py_splitlines_unlines (lines : list string) :
  Forall (fun line => string_forall not_linebreak line = true) lines →
  py_splitlines (unlines lines) = lines.
Proof.
  unfold py_splitlines. induction 1 as [|line lines Hline _ IH]; [done|].
  cbn [unlines foldr]. rewrite py_splitlines_go_line by done.
  change (EmptyString ++ ?s)%string with s. f_equal. apply IH.
Qed.

Lemma parse_env_lines_quoted (q : ascii) (bindings : list (string * string)) :
  ord q = 34 ∨ ord q = 39 →
  Forall (fun kv => py_strip kv.1 = kv.1 ∧ string_forall not_eq_sign kv.1 = true
                    ∧ starts_with_hash kv.1 = false) bindings →
  parse_env_lines (quoted_line q <$> bindings) = foldl env_assign ∅ bindings.
Proof.
  intros Hq. induction bindings as [|[k v] bindings IH] using rev_ind; [done|].
  intros [Hall Hkv]%Forall_app. apply Forall_singleton in Hkv as (Hs & Hk & Hh).
  rewrite fmap_app, foldl_app. simpl.
  rewrite parse_env_lines_snoc, IH by done.
  unfold parse_env_line. by rewrite env_binding_quoted_line.
Qed.

(** X20: the env file round trip.  Take bindings whose keys are as X19
    says keys are, and whose keys and values hold no line break, and write
    each as a line [k=qvq] between two double or two single quotes [q].
    Then [parse_env_file] returns the dict of the assignments [env[k] = v]
    made in order: the quotes are removed, and whatever stands between
    them (blanks, equals signs, quotes) is the value. *)
Theorem parse_env_file_quoted_round_trip (fs : filesystem) (path : Path)
    (q : ascii) (bindings : list (string * string)) :
  ord q = 34 ∨ ord q = 39 →
  Forall (fun kv => py_strip kv.1 = kv.1 ∧ string_forall not_eq_sign kv.1 = true
                    ∧ starts_with_hash kv.1 = false
                    ∧ string_forall not_linebreak kv.1 = true
                    ∧ string_forall not_linebreak kv.2 = true) bindings →
  fs_read_text fs path = ReadText (unlines (quoted_line q <$> bindings)) →
  parse_env_file fs path = Return (foldl env_assign ∅ bindings).
Proof.
  intros Hq Hall Hread. unfold parse_env_file, read_text. rewrite Hread. simpl.
  f_equal. rewrite py_splitlines_unlines.
  - apply parse_env_lines_quoted; [done|].
    eapply Forall_impl; [exact Hall|]. by intros kv (? & ? & ? & _).
  - apply Forall_fmap. eapply Forall_impl; [exact Hall|].
    intros [k v] (_ & _ & _ & Hk & Hv). simpl in *. unfold quoted_line.
    simpl fst. simpl snd.
    destruct (quote_not_blank q Hq) as [_ Hqlb].
    change ("=" ++ ?s)%string with (String "=" s).
    rewrite string_forall_app. cbn [string_forall].
    rewrite string_forall_app. cbn [string_forall].
    rewrite Hk, Hv, Hqlb. done.
Qed.

(** *** [infer_from_base_args] *)

Lemma follows_last_cons flag t next (r : list string) v :
  follows_last flag (t :: next :: r) v ↔
  follows_last flag (next :: r) v
  ∨ (t = flag ∧ next = v ∧ never_followed flag (next :: r)).
Proof.
  split.
  - intros ([|i] & Hi & Hv & Hlast).
    + right. simpl in *. injection Hi as ->. injection Hv as ->.
      split; [done|]. split; [done|]. intros j Hj.
      apply (Hlast (S j)); [lia|done].
    + left. exists i. split; [done|]. split; [done|].
      intros j Hij Hj. apply (Hlast (S j)); [lia|done].
  - intros [(i & Hi & Hv & Hlast)|(-> & -> & Hnone)].
    + exists (S i). split; [done|]. split; [done|].
      intros [|j] Hij Hj; [lia|]. apply (Hlast j); [lia|done].
    + exists 0%nat. split; [done|]. split; [done|].
      intros [|j] Hij Hj; [lia|]. by apply Hnone.
Qed.

Lemma never_followed_cons flag t next (r : list string) :
  never_followed flag (t :: next :: r)
  ↔ t ≠ flag ∧ never_followed flag (next :: r).
Proof.
  split.
  - intros Hnone. split.
    + intros ->. by specialize (Hnone 0%nat eq_refl).
    + intros j Hj. by apply (Hnone (S j)).
  - intros [Ht Hnone] [|j] Hj.
    + simpl in Hj. congruence.
    + by apply Hnone.
Qed.

Lemma infer_from_tokens_cons out t next (r : list string) :
  infer_from_tokens out (t :: next :: r)
  = infer_from_tokens (infer_step out t next) (next :: r).
Proof. reflexivity. Qed.

Lemma infer_from_tokens_lookup (key flag : string) :
  (∀ out t next, infer_step out t next !! key
                 = if String.eqb t flag then Some next else out !! key) →
  ∀ tokens out v,
    infer_from_tokens out tokens !! key = Some v ↔
    follows_last flag tokens v
    ∨ (never_followed flag tokens ∧ out !! key = Some v).
Proof.
  intros Hstep tokens. induction tokens as [|t [|next r] IH]; intros out v.
  - simpl. split.
    + intros H. right. split; [|done]. by intros j Hj.
    + intros [(i & Hi & _)|[_ H]]; done.
  - simpl. split.
    + intros H. right. split; [|done]. by intros [|j] Hj.
    + intros [(i & Hi & Hv & _)|[_ H]]; [|done]. by destruct i.
  - rewrite infer_from_tokens_cons, IH, Hstep, follows_last_cons,
      never_followed_cons.
    destruct (String.eqb_spec t flag) as [->|Hne].
    + split.
      * intros [H|[Hnone [= ->]]]; [by left; left|]. left. by right.
      * intros [[H|(_ & -> & Hnone)]|[[Hne _] _]];
          [by left| |by destruct Hne]. by right.
    + split.
      * intros [H|[Hnone Hout]]; [by left; left|]. by right.
      * intros [[H|(-> & _)]|[[_ Hnone] Hout]];
          [by left|by destruct Hne|]. by right.
Qed.

Lemma infer_step_graph out t next :
  infer_step out t next !! "graph"
  = if String.eqb t "--graph" then Some next else out !! "graph".
Proof.
  unfold infer_step.
  destruct (String.eqb_spec t "--rank") as [->|Hr].
  - change (String.eqb "--rank" "--graph") with false. cbv iota.
    by rewrite lookup_insert_ne.
  - destruct (String.eqb_spec t "--graph") as [->|Hg]; [|done].
    by rewrite lookup_insert_eq.
Qed.

Lemma infer_step_rank out t next :
  infer_step out t next !! "rank"
  = if String.eqb t "--rank" then Some next else out !! "rank".
Proof.
  unfold infer_step.
  destruct (String.eqb_spec t "--rank") as [->|Hr].
  - by rewrite lookup_insert_eq.
  - destruct (String.eqb_spec t "--graph") as [->|Hg]; [|done].
    by rewrite lookup_insert_ne.
Qed.

Lemma infer_step_other out t next k :
  k ≠ "graph" → k ≠ "rank" → infer_step out t next !! k = out !! k.
Proof.
  intros Hg Hr. unfold infer_step.
  destruct (String.eqb t "--rank"), (String.eqb t "--graph");
    rewrite ?lookup_insert_ne; done.
Qed.

Lemma infer_from_tokens_other (tokens : list string) out k :
  k ≠ "graph" → k ≠ "rank" → infer_from_tokens out tokens !! k = out !! k.
Proof.
  intros Hg Hr. revert out.
  induction tokens as [|t [|next r] IH]; intros out; [done..|].
  by rewrite infer_from_tokens_cons, IH, infer_step_other.
Qed.

(** X21: what [infer_from_base_args] infers.  When [shlex.split] raises its
    [ValueError] the result is the empty dict.  Otherwise [graph] is bound
    to the token that follows the last [--graph] that has a token after it,
    and is unbound when there is none; the same holds of [rank] and
    [--rank]; and no other key is bound.  The token taken may itself be a
    flag. *)
Theorem infer_from_base_args_last_flag
    (shlex_split : string → option (list string)) (sage_base_args : string) :
  match shlex_split sage_base_args with
  | None => infer_from_base_args shlex_split sage_base_args = ∅
  | Some tokens =>
      (∀ v, infer_from_base_args shlex_split sage_base_args !! "graph" = Some v
            ↔ follows_last "--graph" tokens v)
      ∧ (∀ v, infer_from_base_args shlex_split sage_base_args !! "rank" = Some v
              ↔ follows_last "--rank" tokens v)
      ∧ (∀ k, k ≠ "graph" → k ≠ "rank" →
              infer_from_base_args shlex_split sage_base_args !! k = None)
  end.
Proof.
  unfold infer_from_base_args.
  destruct (shlex_split sage_base_args) as [tokens|]; [|done].
  split; [|split].
  - intros v. rewrite (infer_from_tokens_lookup "graph" "--graph" infer_step_graph).
    rewrite lookup_empty. split; [|by left]. by intros [H|[_ H]].
  - intros v. rewrite (infer_from_tokens_lookup "rank" "--rank" infer_step_rank).
    rewrite lookup_empty. split; [|by left]. by intros [H|[_ H]].
  - intros k Hg Hr. by rewrite infer_from_tokens_other.
Qed.

End ConfigMore.

(* ------------------------------------------------------------------ *)
(** ** From the registry of graphs to the analysis *)

Section MainMore.


End MainMore.

End Monitor.

(** * Examples

    The two library parsers are instantiated by ones that keep the text of
    the group. *)

Lemma analyze_job_raises_on_negative_kdim_witness :
  16 - 1 < 20
  ∧ analyze_job (datetime := string) (float := string) Some Some example_fs
      "shri_r20" "shrikhande" 20 16 4 "nb" "var" 2000
    = Raise ValueError.
Proof.
  split; [lia|].
  apply (analyze_job_raises_on_negative_kdim Some Some example_fs
           "shri_r20" "shrikhande" 20 16 4 "nb" "var" 2000).
  lia.
Defined.

(** The end-to-end example: offset 0 is completed with 114 of 114 cases,
    offsets 1 and 3 are not started, offset 2 is running with 2 cases done. *)
Example analyze_job_example :
  (fun p => (JobProgress.total_cases p,
             (fun w => (WorkerState.cases_done w, WorkerState.cases_total w,
                        WorkerState.status w)) <$> JobProgress.workers p))
  <$> (match analyze_job (datetime := string) (float := string) Some Some
               example_fs "shri_r3" "shrikhande" 3 16 4 "nb" "var" 2000 with
       | Return p => Some p
       | _ => None
       end)
  = Some (455, [(114, 114, "completed"); (0, 114, "not_started");
                (2, 114, "running"); (0, 113, "not_started")]).
Proof. vm_compute. reflexivity. Qed.


Lemma analyze_job_cases_done_le_total_witness :
  0 ≤ 16 - 1 ∧ 0 ≤ 16 - 1 - 3 ∧ 1 ≤ 4
  ∧ ∃ p, analyze_job (datetime := string) (float := string) Some Some example_fs
           "shri_r3" "shrikhande" 3 16 4 "nb" "var" 2000 = Return p
         ∧ JobProgress.cases_done p ≤ JobProgress.total_cases p.
Proof.
  split; [lia|]. split; [lia|]. split; [lia|].
  apply (analyze_job_cases_done_le_total Some Some example_fs "shri_r3"
           "shrikhande" 3 16 4 "nb" "var" 2000); [lia|lia|lia|].
  intros total offset g [= <-] Hin%elem_of_seqZ.
  assert (offset = 0 ∨ offset = 1 ∨ offset = 2 ∨ offset = 3)
    as [->|[->|[->| ->]]] by lia;
    vm_compute; intros [= <-]; reflexivity.
Defined.

(** The claim as first stated fails: with a checkpoint of 4000 for offset 0
    of a job of 455 cases, the done counts add up to 1001. *)
Lemma analyze_job_cases_done_exceeds_total :
  0 ≤ 16 - 1 ∧ 0 ≤ 16 - 1 - 3 ∧ 1 ≤ 4
  ∧ ∃ p, analyze_job (datetime := string) (float := string) Some Some overshoot_fs
           "shri_r3" "shrikhande" 3 16 4 "nb" "var" 2000 = Return p
         ∧ JobProgress.total_cases p = 455
         ∧ JobProgress.cases_done p = 1001.
Proof.
  split; [lia|]. split; [lia|]. split; [lia|].
  eexists. split; [vm_compute; reflexivity|]. split; reflexivity.
Qed.

(** The claim as first stated fails: the log of the only offset holds one
    line, which is a completion event with global index 12 and a
    worker-start line as well; the pass records nothing. *)
Lemma completion_event_on_start_line_not_recorded :
  ∃ p, analyze_job (datetime := string) (float := string) Some Some overlap_fs
         "job" "petersen" 0 10 1 "nb" "var" 2000 = Return p
       ∧ read_log_tail overlap_fs
           (log_file_path "var" (JobProgress.jobset p) 0) 2000
         = Some [start_and_completion_line]
       ∧ completion_event start_and_completion_line = Some 12
       ∧ (worker_case_breakdown_from_logs overlap_fs "var" 2000 p).1 = (∅, ∅).
Proof.
  eexists. split; [vm_compute; reflexivity|]. repeat split; vm_compute; reflexivity.
Qed.

(** ** Witnesses of the further properties *)



Lemma analyze_job_partition_witness :
  ∃ p, analyze_job (datetime := string) (float := string) Some Some example_fs
         "shri_r3" "shrikhande" 3 16 4 "nb" "var" 2000 = Return p
       ∧ length (JobProgress.workers p) = Z.to_nat 4
       ∧ (1 ≤ 4 →
          py_sum (WorkerState.cases_total <$> JobProgress.workers p)
          = JobProgress.total_cases p)
       ∧ (4 ≤ 0 →
          JobProgress.workers p = []
          ∧ JobProgress.cases_done p = 0
          ∧ JobProgress.cases_remaining p = JobProgress.total_cases p).
Proof.
  eexists. split; [vm_compute; reflexivity|].
  apply (analyze_job_partition Some Some example_fs "shri_r3" "shrikhande"
           3 16 4 "nb" "var" 2000).
  vm_compute; reflexivity.
Defined.

Lemma analyze_job_counts_nonneg_witness :
  ∃ p, analyze_job (datetime := string) (float := string) Some Some overshoot_fs
         "shri_r3" "shrikhande" 3 16 4 "nb" "var" 2000 = Return p
       ∧ Forall (fun w => 0 ≤ WorkerState.cases_done w
                          ∧ 0 ≤ WorkerState.cases_total w)
                (JobProgress.workers p)
       ∧ 0 ≤ JobProgress.cases_done p
       ∧ 0 ≤ JobProgress.cases_remaining p ≤ JobProgress.total_cases p.
Proof.
  eexists. split; [vm_compute; reflexivity|].
  apply (analyze_job_counts_nonneg Some Some overshoot_fs "shri_r3" "shrikhande"
           3 16 4 "nb" "var" 2000).
  vm_compute; reflexivity.
Defined.

Lemma analyze_job_completed_iff_last_index_witness :
  ∃ p, analyze_job (datetime := string) (float := string) Some Some example_fs
         "shri_r3" "shrikhande" 3 16 4 "nb" "var" 2000 = Return p
       ∧ (WorkerState.last_gidx <$> JobProgress.workers p)
         = [Some 452; None; Some 6; None]
       ∧ Forall (fun w => ∀ g,
            WorkerState.last_gidx w = Some g →
            WorkerState.offset w ≤ g → g < JobProgress.total_cases p →
            (g - WorkerState.offset w) mod 4 = 0 →
            (WorkerState.status w = "completed"
             ↔ JobProgress.total_cases p ≤ g + 4)
            ∧ (WorkerState.status w = "completed"
               ∨ WorkerState.status w = "running"))
           (JobProgress.workers p).
Proof.
  eexists. split; [vm_compute; reflexivity|]. split; [vm_compute; reflexivity|].
  apply (analyze_job_completed_iff_last_index Some Some example_fs "shri_r3"
           "shrikhande" 3 16 4 "nb" "var" 2000).
  vm_compute; reflexivity.
Defined.

Lemma parse_log_times_window_witness :
  fs_exists logged_fs "var/job/log/job_off0.log" = true
  ∧ fs_read_text_replace logged_fs "var/job/log/job_off0.log"
    = Some (unlines example_log)
  ∧ (let lines := py_splitlines (unlines example_log) in
     (1 ≤ 2 →
      parse_log_times (datetime := string) (float := string) Some Some logged_fs
        "var/job/log/job_off0.log" 2
      = omap (parse_log_line Some Some) (drop (length lines - Z.to_nat 2) lines)
      ∧ (length (parse_log_times (datetime := string) (float := string) Some Some
                   logged_fs "var/job/log/job_off0.log" 2) ≤ Z.to_nat 2)%nat)
     ∧ (2 = 0 →
        parse_log_times (datetime := string) (float := string) Some Some logged_fs
          "var/job/log/job_off0.log" 2
        = omap (parse_log_line Some Some) lines)
     ∧ (2 < 0 →
        parse_log_times (datetime := string) (float := string) Some Some logged_fs
          "var/job/log/job_off0.log" 2
        = omap (parse_log_line Some Some) (drop (Z.to_nat (- 2)) lines)))
  ∧ parse_log_times (datetime := string) (float := string) Some Some logged_fs
      "var/job/log/job_off0.log" 2
    = [("2024-01-01T00:00:03", "2")].
Proof.
  split; [vm_compute; reflexivity|]. split; [vm_compute; reflexivity|].
  split; [|vm_compute; reflexivity].
  apply (parse_log_times_window Some Some logged_fs "var/job/log/job_off0.log" 2
           (unlines example_log)); vm_compute; reflexivity.
Defined.


Lemma analyze_job_recent_times_witness :
  ∃ p, analyze_job (datetime := string) (float := string) Some Some timed_fs
         "job" "petersen" 2 10 2 "nb" "var" 2000 = Return p
       ∧ (WorkerState.recent_times <$> JobProgress.workers p)
         = [[]; ["1.0"; "1.5"; "2"]]
       ∧ Forall (fun w =>
           let log_file := log_file_path "var" "job" (WorkerState.offset w) in
           (length (WorkerState.recent_times w) ≤ 50)%nat
           ∧ WorkerState.recent_times w
             `suffix_of` (snd <$> parse_log_times Some Some timed_fs log_file 2000)
           ∧ WorkerState.last_timestamp w
             = get_last_activity Some timed_fs log_file 2000)
         (JobProgress.workers p).
Proof.
  eexists. split; [vm_compute; reflexivity|]. split; [vm_compute; reflexivity|].
  apply (analyze_job_recent_times Some Some timed_fs "job" "petersen" 2 10 2
           "nb" "var" 2000).
  vm_compute; reflexivity.
Defined.

Lemma worker_case_breakdown_sound_witness :
  ∃ (p : JobProgress.t string string) s,
    analyze_job Some Some logged_fs "job" "petersen" 0 10 1 "nb" "var" 2000
    = Return p
    ∧ (worker_case_breakdown_from_logs logged_fs "var" 2000 p).1.1 !! 3 = Some s
    ∧ 4 ∈ s
    ∧ ∃ (w : WorkerState.t string string) lines line,
        w ∈ JobProgress.workers p
        ∧ read_log_tail logged_fs
            (log_file_path "var" (JobProgress.jobset p) (WorkerState.offset w))
            2000 = Some lines
        ∧ line ∈ lines
        ∧ completion_event line = Some 4
        ∧ (3 = 0 ∨ ∃ start, start ∈ lines ∧ worker_start start = Some (Some 3)).
Proof.
  do 2 eexists. split; [vm_compute; reflexivity|].
  split; [vm_compute; reflexivity|].
  assert (4 ∈ ({[0; 4]} : gset Z)) as Hin by set_solver.
  split; [exact Hin|].
  refine (worker_case_breakdown_sound logged_fs "var" 2000 _ 3 _ 4 _ Hin).
  vm_compute; reflexivity.
Defined.

Lemma worker_case_breakdown_sets_witness :
  ∃ (p : JobProgress.t string string) s,
    analyze_job Some Some logged_fs "job" "petersen" 0 10 1 "nb" "var" 2000
    = Return p
    ∧ (worker_case_breakdown_from_logs logged_fs "var" 2000 p).1.1 !! 0 = Some s
    ∧ s ≠ ∅
    ∧ s ⊆ (worker_case_breakdown_from_logs logged_fs "var" 2000 p).1.2
    ∧ (1 ≤ size s
       ≤ size (worker_case_breakdown_from_logs logged_fs "var" 2000 p).1.2)%nat.
Proof.
  do 2 eexists. split; [vm_compute; reflexivity|].
  split; [vm_compute; reflexivity|].
  refine (worker_case_breakdown_sets logged_fs "var" 2000 _ 0 _ _).
  vm_compute; reflexivity.
Defined.

Lemma parse_state_file_reads_back_witness :
  fs_exists timed_fs "nb/state_petersen_r2_stride2_off1.txt" = true
  ∧ fs_read_text timed_fs "nb/state_petersen_r2_stride2_off1.txt"
    = ReadText (" " ++ py_str_int 7 ++ LF)
  ∧ string_forall py_isspace " " = true ∧ string_forall py_isspace LF = true
  ∧ Z.abs 7 < 10 ^ Z.of_nat int_max_str_digits
  ∧ parse_state_file timed_fs "nb/state_petersen_r2_stride2_off1.txt"
    = Return (Some 7).
Proof.
  assert (Z.abs 7 < 10 ^ Z.of_nat int_max_str_digits) as Hn
    by (vm_compute; reflexivity).
  split; [vm_compute; reflexivity|]. split; [vm_compute; reflexivity|].
  split; [reflexivity|]. split; [reflexivity|]. split; [exact Hn|].
  apply (parse_state_file_reads_back timed_fs
           "nb/state_petersen_r2_stride2_off1.txt" 7 " " LF);
    [vm_compute; reflexivity|vm_compute; reflexivity|reflexivity|reflexivity
    |exact Hn].
Defined.

Lemma parse_env_file_last_binding_witness :
  fs_read_text env_fs "sagequeue.env" = ReadText example_env
  ∧ ∃ env, parse_env_file env_fs "sagequeue.env" = Return env
      ∧ ∀ k v,
          env !! k = Some v ↔
          ∃ (i : nat) raw,
            py_splitlines example_env !! i = Some raw
            ∧ env_binding raw = Some (k, v)
            ∧ ∀ (j : nat) raw' v',
                (i < j)%nat → py_splitlines example_env !! j = Some raw' →
                env_binding raw' ≠ Some (k, v').
Proof.
  split; [vm_compute; reflexivity|].
  apply (parse_env_file_last_binding env_fs "sagequeue.env" example_env).
  vm_compute; reflexivity.
Defined.

Example parse_env_file_example :
  parse_env_file env_fs "sagequeue.env"
  = Return (list_to_map
      [("JOBSET", "shri_r3"); ("STRIDE", "8");
       ("SAGE_BASE_ARGS", "--graph shrikhande --rank 3")]).
Proof. vm_compute. reflexivity. Qed.

Lemma parse_env_file_keys_witness :
  ∃ env, parse_env_file env_fs "sagequeue.env" = Return env
    ∧ env !! "STRIDE" = Some "8"
    ∧ map_Forall (fun k _ => py_strip k = k
                             ∧ string_forall not_eq_sign k = true
                             ∧ starts_with_hash k = false) env.
Proof.
  exists (parse_env_lines (py_splitlines example_env)).
  assert (parse_env_file env_fs "sagequeue.env"
          = Return (parse_env_lines (py_splitlines example_env))) as Hret
    by (vm_compute; reflexivity).
  split; [exact Hret|]. split; [vm_compute; reflexivity|].
  exact (parse_env_file_keys env_fs "sagequeue.env" _ Hret).
Defined.

Lemma parse_env_file_quoted_round_trip_witness :
  (ord DQUOTE = 34 ∨ ord DQUOTE = 39)
  ∧ fs_read_text quoted_env_fs "sagequeue.env"
    = ReadText (unlines (quoted_line DQUOTE <$> quoted_bindings))
  ∧ parse_env_file quoted_env_fs "sagequeue.env"
    = Return (foldl env_assign ∅ quoted_bindings)
  ∧ foldl env_assign ∅ quoted_bindings !! "JOBSET" = Some " other ".
Proof.
  split; [by left|]. split; [vm_compute; reflexivity|].
  split; [|vm_compute; reflexivity].
  apply (parse_env_file_quoted_round_trip quoted_env_fs "sagequeue.env" DQUOTE
           quoted_bindings); [by left| |vm_compute; reflexivity].
  repeat constructor.
Defined.
